(** * OnviaTV backend: the pairing server of [routes.ts] and the report store
    of [storage.ts]

    The server keeps a registry of connected sockets ([activeUsers], a JS
    [Map] from socket id to a mutable user object), three insertion-ordered
    [Set]s of waiting socket ids ([waitingUsers.male], [.female], [.both])
    and an in-memory report store ([MemStorage]).  Every Socket.IO event
    runs its handler to completion before the next one starts, so a handler
    is a function from the state before the turn to the state after it,
    together with the messages it emitted and whether it threw.

    Representation choices.
    - Socket ids are strings.  [if (x)] on a string-or-null value is false
      for [null] and for the empty string; [truthy] spells that out.
    - A user object is only ever reached through [activeUsers.get(k)] inside
      a handler, and every [activeUsers.set(k, o)] of the source stores the
      object that was just fetched from the same key.  An object is therefore
      identified with its key and an assignment [o.f = v] is an [alter] at
      that key; the [set] calls that follow such an assignment store nothing
      new.  The identification is exact on every state in which no user is
      its own peer (there [peer] and [user] would be one object and the
      [set] would be keyed by the [null] just assigned); [no_self_peer]
      shows that no event sequence produces such a state.
    - A JS [Set] is the list of its elements in insertion order, without
      repetition ([c_nodup] below).
    - [reportIdCounter] is a JS number: an integer that [++] increments
      exactly while it is below 2^53 and leaves unchanged at 2^53.
    - Payloads relayed between peers are opaque to the server; they are
      strings here.  [new Date()] is an integer handed to the handler.
    - The server checks no payload.  [update-preferences] stores whatever
      the client sent, and reading [.gender] or [.country] of a stored
      [null] or [undefined] throws; the stored value is therefore an
      [option]: [None] for [null] and [undefined], [Some] of the two values
      read off anything else.  These two values are only ever compared for
      equality; they are strings here.  [report-user] destructures its
      argument, which throws on [null] and [undefined] before the handler
      body starts; that payload is an [option] as well.
    - A call that can throw yields a [Result]; a handler that throws keeps
      the writes it had made and emits what it had emitted.  What the
      runtime does with the exception is not in these sources; the states
      after a throwing turn count as reachable, so that every invariant
      below also holds if the server lives on. *)

From stdpp Require Import gmap strings list fin_maps.

Local Open Scope string_scope.
Local Open Scope list_scope.
Local Open Scope nat_scope.

(** ** Data model *)

Record Preferences := mkPreferences {
  pref_gender : string;
  pref_country : string
}.

(** [preferences] holds what the client sent last: [None] when that was
    [null] or [undefined]. *)
Record User := mkUser {
  id : string;
  gender : string;
  preferences : option Preferences;
  currentPeer : option string
}.

Record WaitingUsers := mkWaitingUsers {
  male : list string;
  female : list string;
  both : list string
}.

Record InsertReport := mkInsertReport {
  reporterId : string;
  reportedId : string;
  reason : string;
  details : string;
  timestamp : Z
}.

(** [{ ...insertReport, id }] *)
Record Report := mkReport {
  report_fields : InsertReport;
  report_id : Z
}.

Record MemStorage := mkMemStorage {
  reports : gmap Z Report;
  reportIdCounter : Z
}.

Record State := mkState {
  activeUsers : gmap string User;
  waitingUsers : WaitingUsers;
  storage : MemStorage
}.

(** A message handed to the transport: [io.to(target).emit(event, ...args)]
    (or [socket.emit] when the target is the handling socket itself). *)
Record Emit := mkEmit {
  target : string;
  event : string;
  args : list string
}.

(** What a call leaves: the value it returned, or nothing when it threw. *)
Inductive Result (A : Type) :=
  | Returned (a : A)
  | Thrown.
Arguments Returned {A} _.
Arguments Thrown {A}.

(** What one handler turn leaves behind. *)
Record Outcome := mkOutcome {
  st : State;
  emitted : list Emit;
  threw : bool
}.

(** ** JavaScript primitives used by the handlers *)

(** [if (v)] for [v] a string or [null]. *)
Definition truthy (v : option string) : option string :=
  match v with
  | Some x => if decide (x = EmptyString) then None else Some x
  | None => None
  end.

(** [set.add(x)] and [set.delete(x)] on an insertion-ordered [Set]. *)
Definition set_add (x : string) (l : list string) : list string :=
  if decide (x ∈ l) then l else l ++ [x].

Definition set_delete (x : string) (l : list string) : list string :=
  filter (λ y, y ≠ x) l.

(** [n++] on a JS number holding a positive integer. *)
Definition MAX_SAFE : Z := 2 ^ 53.

Definition js_incr (n : Z) : Z :=
  if decide (n < MAX_SAFE)%Z then (n + 1)%Z else n.

(** Field assignments on the object stored under a key. *)
Definition set_currentPeer (v : option string) (u : User) : User :=
  mkUser (id u) (gender u) (preferences u) v.

Definition set_preferences (p : option Preferences) (u : User) : User :=
  mkUser (id u) (gender u) p (currentPeer u).

Definition with_users (s : State) (m : gmap string User) : State :=
  mkState m (waitingUsers s) (storage s).

Definition with_waiting (s : State) (w : WaitingUsers) : State :=
  mkState (activeUsers s) w (storage s).

(** ** [storage.ts] *)

Definition newMemStorage : MemStorage := mkMemStorage ∅ 1.

(** [createReport]: the body has no [await], so it runs to its end inside
    the caller's turn. *)
Definition createReport (m : MemStorage) (r : InsertReport)
  : MemStorage * Report :=
  let i := reportIdCounter m in
  let report := mkReport r i in
  (mkMemStorage (<[i := report]> (reports m)) (js_incr i), report).

Definition getReports (m : MemStorage) : list Report :=
  (map_to_list (reports m)).*2.

(** ** [routes.ts]: the match engine and the waiting pools *)

Definition init : State :=
  mkState ∅ (mkWaitingUsers [] [] []) newMemStorage.

(** Lines 37-49: the pool or pools a seeker draws from. *)
Definition potentialMatches (w : WaitingUsers) (g : string) : list string :=
  if decide (g = "male") then male w
  else if decide (g = "female") then female w
  else male w ++ female w ++ both w.

(** Lines 53-56: the test of the country filter on a candidate's stored
    preferences, and the filter.  [match && (...)] drops an id without a
    user; [match.preferences.country] throws when the stored preferences
    are [null] or [undefined]. *)
Definition countryOk (p q : Preferences) : bool :=
  bool_decide (pref_country q = pref_country p)
  || bool_decide (pref_country q = "any").

Fixpoint countryFilter (m : gmap string User) (p : Preferences)
    (l : list string) : Result (list string) :=
  match l with
  | [] => Returned []
  | i :: rest =>
      match m !! i with
      | None => countryFilter m p rest
      | Some cand =>
          match preferences cand with
          | None => Thrown
          | Some q =>
              match countryFilter m p rest with
              | Returned kept =>
                  Returned (if countryOk p q then i :: kept else kept)
              | Thrown => Thrown
              end
          end
      end
  end.

(** Lines 60-64: the first id of the list that is not the seeker's. *)
Fixpoint firstOther (sid : string) (l : list string) : option string :=
  match l with
  | [] => None
  | matchId :: rest =>
      if decide (matchId ≠ sid) then Some matchId else firstOther sid rest
  end.

(** Lines 32-67.  [user.preferences.gender] of line 38 throws when the
    seeker's stored preferences are [null] or [undefined]. *)
Definition findMatch (s : State) (sid : string) : Result (option string) :=
  match activeUsers s !! sid with
  | None => Returned None
  | Some user =>
      match preferences user with
      | None => Thrown
      | Some p =>
          let pm := potentialMatches (waitingUsers s) (pref_gender p) in
          if decide (pref_country p ≠ "any")
          then match countryFilter (activeUsers s) p pm with
               | Returned kept => Returned (firstOther sid kept)
               | Thrown => Thrown
               end
          else Returned (firstOther sid pm)
      end
  end.

Definition removeFromWaitingPools (s : State) (sid : string) : State :=
  let w := waitingUsers s in
  with_waiting s
    (mkWaitingUsers (set_delete sid (male w)) (set_delete sid (female w))
       (set_delete sid (both w))).

Definition addToWaitingPool (s : State) (sid : string) : State :=
  match activeUsers s !! sid with
  | None => s
  | Some user =>
      let w := waitingUsers (removeFromWaitingPools s sid) in
      with_waiting s
        (if decide (gender user = "male")
         then mkWaitingUsers (set_add sid (male w)) (female w) (both w)
         else if decide (gender user = "female")
         then mkWaitingUsers (male w) (set_add sid (female w)) (both w)
         else mkWaitingUsers (male w) (female w) (set_add sid (both w)))
  end.

(** ** [routes.ts]: the event handlers *)

Definition ok (s : State) (out : list Emit) : Outcome := mkOutcome s out false.

Definition peer_disconnected (p : string) : Emit :=
  mkEmit p "peer-disconnected" [].

Definition ready (p : string) : Emit := mkEmit p "ready" [].

(** Lines 101-109. *)
Definition on_connection (s : State) (sid : string) : Outcome :=
  ok (with_users s
        (<[sid := mkUser sid "both" (Some (mkPreferences "both" "any")) None]>
           (activeUsers s))) [].

(** Lines 112-118. *)
Definition on_update_preferences (s : State) (sid : string)
    (p : option Preferences) : Outcome :=
  match activeUsers s !! sid with
  | Some _ => ok (with_users s (alter (set_preferences p) sid (activeUsers s))) []
  | None => ok s []
  end.

(** Lines 126-137: an already paired seeker lets go of its peer. *)
Definition unpair_before_match (s : State) (sid : string) (user : User)
  : State * list Emit :=
  match truthy (currentPeer user) with
  | Some p =>
      let '(m, out) :=
        match activeUsers s !! p with
        | Some _ =>
            (alter (set_currentPeer None) p (activeUsers s),
             [peer_disconnected p])
        | None => (activeUsers s, [])
        end in
      (with_users s (alter (set_currentPeer None) sid m), out)
  | None => (s, [])
  end.

(** Lines 121-164. *)
Definition on_find_peer (s : State) (sid : string) : Outcome :=
  match activeUsers s !! sid with
  | None => ok s []
  | Some user =>
      let '(s1, out) := unpair_before_match s sid user in
      match findMatch s1 sid with
      | Thrown =>
          (* [findMatch] throws: the turn ends after the unpairing *)
          mkOutcome s1 out true
      | Returned found =>
          match truthy found with
          | Some matchId =>
              let m1 :=
                alter (set_currentPeer (Some matchId)) sid (activeUsers s1) in
              match activeUsers s1 !! matchId with
              | None =>
                  (* [match] is undefined: the assignment of line 148 throws *)
                  mkOutcome (with_users s1 m1) out true
              | Some _ =>
                  let m2 := alter (set_currentPeer (Some sid)) matchId m1 in
                  let s2 := removeFromWaitingPools
                              (removeFromWaitingPools (with_users s1 m2) sid)
                              matchId in
                  ok s2 (out ++ [ready sid; ready matchId])
              end
          | None => ok (addToWaitingPool s1 sid) out
          end
      end
  end.

(** Lines 167-194: the four relay handlers differ in the event name only. *)
Definition relay (kind : string) (s : State) (sid : string)
    (payload : string) : Outcome :=
  match activeUsers s !! sid with
  | Some user =>
      match truthy (currentPeer user) with
      | Some p => ok s [mkEmit p kind [payload]]
      | None => ok s []
      end
  | None => ok s []
  end.

Definition on_offer := relay "offer".
Definition on_answer := relay "answer".
Definition on_ice_candidate := relay "ice-candidate".
Definition on_chat_message := relay "chat-message".

(** Lines 197-220.  [now] is the value of [new Date()] in this turn.  The
    parameter [{ reason, details }] is destructured when the handler is
    called: on [null] or [undefined] that throws, before line 198. *)
Definition on_report_user (s : State) (sid : string)
    (payload : option (string * string)) (now : Z) : Outcome :=
  match payload with
  | None => mkOutcome s [] true
  | Some (reason, details) =>
      match activeUsers s !! sid with
      | Some user =>
          match truthy (currentPeer user) with
          | Some p =>
              let '(store, _) :=
                createReport (storage s)
                  (mkInsertReport sid p reason details now) in
              let '(m, out) :=
                match activeUsers s !! p with
                | Some _ =>
                    (alter (set_currentPeer None) p (activeUsers s),
                     [peer_disconnected p])
                | None => (activeUsers s, [])
                end in
              ok (mkState (alter (set_currentPeer None) sid m)
                    (waitingUsers s) store) out
          | None => ok s []
          end
      | None => ok s []
      end
  end.

(** Lines 223-243. *)
Definition on_disconnect (s : State) (sid : string) : Outcome :=
  let '(m, out) :=
    match activeUsers s !! sid with
    | Some user =>
        match truthy (currentPeer user) with
        | Some p =>
            (match activeUsers s !! p with
             | Some _ => alter (set_currentPeer None) p (activeUsers s)
             | None => activeUsers s
             end, [peer_disconnected p])
        | None => (activeUsers s, [])
        end
    | None => (activeUsers s, [])
    end in
  let s1 := removeFromWaitingPools (with_users s m) sid in
  ok (with_users s1 (delete sid (activeUsers s1))) out.

(** ** Events and reachable states *)

Inductive Event :=
  | Connection
  | UpdatePreferences (p : option Preferences)
  | FindPeer
  | Offer (payload : string)
  | Answer (payload : string)
  | IceCandidate (payload : string)
  | ChatMessage (payload : string)
  | ReportUser (payload : option (string * string)) (now : Z)
  | Disconnect.

Definition handle (s : State) (sid : string) (e : Event) : Outcome :=
  match e with
  | Connection => on_connection s sid
  | UpdatePreferences p => on_update_preferences s sid p
  | FindPeer => on_find_peer s sid
  | Offer x => on_offer s sid x
  | Answer x => on_answer s sid x
  | IceCandidate x => on_ice_candidate s sid x
  | ChatMessage x => on_chat_message s sid x
  | ReportUser payload now => on_report_user s sid payload now
  | Disconnect => on_disconnect s sid
  end.

(** The transport hands out the ids: a connecting socket carries a non-empty
    id that no connected socket has.  Every other event is accepted from
    any id, connected or not. *)
Definition admissible (s : State) (sid : string) (e : Event) : Prop :=
  match e with
  | Connection => sid ≠ EmptyString ∧ activeUsers s !! sid = None
  | _ => True
  end.

Inductive reachable : State → Prop :=
  | reachable_init : reachable init
  | reachable_step s sid e :
      reachable s → admissible s sid e → reachable (st (handle s sid e)).

(** Running a script of events, for concrete scenarios. *)
Definition run (script : list (string * Event)) (s : State) : State :=
  foldl (λ acc ev, st (handle acc ev.1 ev.2)) s script.

(** The admissibility test as a function, to check scripts by evaluation. *)
Definition admissibleb (s : State) (sid : string) (e : Event) : bool :=
  match e with
  | Connection =>
      negb (bool_decide (sid = EmptyString))
      && bool_decide (activeUsers s !! sid = None)
  | _ => true
  end.

Fixpoint valid_script (s : State) (script : list (string * Event)) : bool :=
  match script with
  | [] => true
  | ev :: rest =>
      admissibleb s ev.1 ev.2 && valid_script (st (handle s ev.1 ev.2)) rest
  end.

(** ** Properties of states *)

(** [k] waits in one of the three pools. *)
Definition queued (w : WaitingUsers) (k : string) : Prop :=
  k ∈ male w ∨ k ∈ female w ∨ k ∈ both w.

(** In how many of the three pools [k] waits. *)
Definition membership (w : WaitingUsers) (k : string) : nat :=
  (if decide (k ∈ male w) then 1 else 0)
  + (if decide (k ∈ female w) then 1 else 0)
  + (if decide (k ∈ both w) then 1 else 0).

(** Each pool lists an id once, as a [Set] does. *)
Definition nodup_pools (w : WaitingUsers) : Prop :=
  NoDup (male w) ∧ NoDup (female w) ∧ NoDup (both w).

(** The facts about registry and pools that every turn maintains. *)
Record consistent (s : State) : Prop := mkConsistent {
  c_ids : ∀ k u, activeUsers s !! k = Some u → id u = k ∧ k ≠ EmptyString;
  c_peers : ∀ k u p,
    activeUsers s !! k = Some u → currentPeer u = Some p →
    p ≠ k ∧ ∃ v, activeUsers s !! p = Some v ∧ currentPeer v = Some k;
  c_queued : ∀ k,
    queued (waitingUsers s) k →
    ∃ u, activeUsers s !! k = Some u ∧ currentPeer u = None;
  c_excl : ∀ k, membership (waitingUsers s) k ≤ 1;
  c_nodup : nodup_pools (waitingUsers s)
}.

(** Nobody has declared a gender: all users carry the default. *)
Record inert (s : State) : Prop := mkInert {
  i_gender : ∀ k u, activeUsers s !! k = Some u → gender u = "both";
  i_male : male (waitingUsers s) = [];
  i_female : female (waitingUsers s) = []
}.

(** Report ids below the counter are the ones in use, until the counter
    stops at 2^53. *)
Record store_ok (m : MemStorage) : Prop := mkStoreOk {
  so_range : (1 ≤ reportIdCounter m ≤ MAX_SAFE)%Z;
  so_keys : ∀ k r, reports m !! k = Some r →
    report_id r = k ∧ (1 ≤ k)%Z ∧
    ((k < reportIdCounter m)%Z ∨ reportIdCounter m = MAX_SAFE)
}.

(** Every user of [m'] was already in [m], with the same [gender]. *)
Definition keeps_gender (m m' : gmap string User) : Prop :=
  ∀ k u', m' !! k = Some u' → ∃ u, m !! k = Some u ∧ gender u' = gender u.

(** ** The match engine in the words of the specification

    Look the seeker up; take the candidates for the seeker's desired
    category; unless the seeker's desired region is "any", keep the
    candidates whose own session desires the same region or "any"; drop the
    seeker's own id; return the first one left.

    The desired category is what the stored [gender] preference says:
    "male" is category A, "female" category B, anything else Either.  The
    candidates of a category are its partition; those of Either are the
    three partitions, here in the order male, female, both.  What the
    specification does not mention is written out: preferences that are
    [null] or [undefined] cannot be read, the seeker's never and a
    registered candidate's not when regions are compared. *)
Inductive DesiredCategory :=
  | CategoryA
  | CategoryB
  | Either.

Definition desiredCategory (g : string) : DesiredCategory :=
  if decide (g = "male") then CategoryA
  else if decide (g = "female") then CategoryB
  else Either.

Definition candidates (w : WaitingUsers) (d : DesiredCategory) : list string :=
  match d with
  | CategoryA => male w
  | CategoryB => female w
  | Either => male w ++ female w ++ both w
  end.

(** The candidate has a session whose desired region suits seeker [p]. *)
Definition region_compatible (m : gmap string User) (p : Preferences)
    (c : string) : Prop :=
  match m !! c with
  | Some cand =>
      match preferences cand with
      | Some q =>
          pref_country q = pref_country p ∨ pref_country q = "any"
      | None => False
      end
  | None => False
  end.

#[global] Instance region_compatible_dec m p c :
  Decision (region_compatible m p c).
Proof.
  unfold region_compatible. destruct (m !! c) as [cand |]; [| apply _].
  destruct (preferences cand); apply _.
Defined.

(** The candidate has a session whose preferences cannot be read. *)
Definition unreadable (m : gmap string User) (c : string) : Prop :=
  match m !! c with
  | Some cand => preferences cand = None
  | None => False
  end.

#[global] Instance unreadable_dec m c : Decision (unreadable m c).
Proof.
  unfold unreadable. destruct (m !! c) as [cand |]; [| apply _].
  destruct (preferences cand); [right | left]; done.
Defined.

Definition findMatch_spec (s : State) (seekerId : string)
  : Result (option string) :=
  match activeUsers s !! seekerId with
  | None => Returned None
  | Some seeker =>
      match preferences seeker with
      | None => Thrown
      | Some p =>
          let cands :=
            candidates (waitingUsers s) (desiredCategory (pref_gender p)) in
          if decide (pref_country p = "any")
          then Returned (head (filter (λ c, c ≠ seekerId) cands))
          else if decide (Exists (unreadable (activeUsers s)) cands)
          then Thrown
          else Returned
                 (head (filter (λ c, c ≠ seekerId)
                          (filter (region_compatible (activeUsers s) p) cands)))
      end
  end.

(** A candidate survives the filters of the match engine for a seeker with
    preferences [p]. *)
Definition survives (s : State) (seekerId : string) (p : Preferences)
    (c : string) : Prop :=
  c ≠ seekerId
  ∧ (pref_country p ≠ "any" → region_compatible (activeUsers s) p c).

#[global] Instance survives_dec s sid p c : Decision (survives s sid p c).
Proof. unfold survives. apply _. Defined.

(** The match engine throws on the filter: regions are compared and some
    candidate's preferences cannot be read. *)
Definition filter_throws (s : State) (p : Preferences) (cands : list string)
  : Prop :=
  pref_country p ≠ "any" ∧ Exists (unreadable (activeUsers s)) cands.

(** The relayed events, with the name they are forwarded under. *)
Definition relayed (e : Event) : option (string * string) :=
  match e with
  | Offer x => Some ("offer", x)
  | Answer x => Some ("answer", x)
  | IceCandidate x => Some ("ice-candidate", x)
  | ChatMessage x => Some ("chat-message", x)
  | _ => None
  end.

(** ** Scenarios *)

Definition default_user (sid : string) (peer : option string) : User :=
  mkUser sid "both" (Some (mkPreferences "both" "any")) peer.

Definition two_connected : State :=
  run [("a", Connection); ("b", Connection)] init.

Definition one_waiting : State := run [("a", FindPeer)] two_connected.

Definition paired : State := run [("b", FindPeer)] one_waiting.

Definition b_wants_male : State :=
  run [("b", UpdatePreferences (Some (mkPreferences "male" "any")))] one_waiting.

(** Two sockets waiting with different desired regions: [x] asked for "FR"
    and waits; [y] asked for "DE", found [x] incompatible, waits too and
    then relaxes to "any"; [z] asks for "US"; [w] keeps the default. *)
Definition regions : State :=
  run [("x", Connection); ("y", Connection); ("z", Connection);
       ("w", Connection);
       ("x", UpdatePreferences (Some (mkPreferences "both" "FR"))); ("x", FindPeer);
       ("y", UpdatePreferences (Some (mkPreferences "both" "DE"))); ("y", FindPeer);
       ("y", UpdatePreferences (Some (mkPreferences "both" "any")));
       ("z", UpdatePreferences (Some (mkPreferences "both" "US")))] init.

(** A state no event sequence produces: a waiting id without a session. *)
Definition ghost_waiting : State :=
  mkState {[ "a" := default_user "a" None ]}
    (mkWaitingUsers [] [] ["ghost"]) newMemStorage.

(** The specification's "category filter" scenario, set up by hand since no
    event declares a category: A desires "female", B waits in the "male"
    pool. *)
Definition mismatch : State :=
  mkState
    {[ "A" := mkUser "A" "male" (Some (mkPreferences "female" "any")) None;
       "B" := mkUser "B" "male" (Some (mkPreferences "both" "any")) None ]}
    (mkWaitingUsers ["B"] [] []) newMemStorage.

(** A socket that sent [update-preferences] without a payload. *)
Definition null_preferences : State :=
  run [("a", Connection); ("a", UpdatePreferences None)] init.

(** [x] waits; its preferences become [null]; [z] asks for "US". *)
Definition null_candidate : State :=
  run [("x", Connection); ("z", Connection); ("x", FindPeer);
       ("x", UpdatePreferences None);
       ("z", UpdatePreferences (Some (mkPreferences "both" "US")))] init.

(** After [a] has reported [b]. *)
Definition reported : State :=
  run [("a", ReportUser (Some ("X", "rude")) 1700000000000)] paired.

(** What a paired socket's former peer is told when the pairing ends. *)
Definition former_peer_notice (user : User) : list Emit :=
  match currentPeer user with
  | Some p => [peer_disconnected p]
  | None => []
  end.

(** ** [storage.ts]: the accounts

    [User] and [InsertUser] come from [@shared/schema], which is not part
    of these sources; the store reads nothing of an [InsertUser] but its
    [username].  The type of the submitted fields is therefore a parameter
    [I], with [username : I → string] passed where it is read.  A stored
    account is [{ ...insertUser, id }].

    [users] is a JS [Map] that [getUserByUsername] iterates, so the order
    of insertion matters: the map is the list of its entries in that
    order.  [Map.set] replaces the value of a key in place and appends a
    new key. *)
Record Account (I : Type) := mkAccount {
  account_fields : I;
  account_id : Z
}.
Arguments mkAccount {I} _ _.
Arguments account_fields {I} _.
Arguments account_id {I} _.

Record Accounts (I : Type) := mkAccounts {
  users : list (Z * Account I);
  userIdCounter : Z
}.
Arguments mkAccounts {I} _ _.
Arguments users {I} _.
Arguments userIdCounter {I} _.

Fixpoint map_set {V : Type} (k : Z) (v : V) (l : list (Z * V))
  : list (Z * V) :=
  match l with
  | [] => [(k, v)]
  | (k', v') :: rest =>
      if decide (k' = k) then (k, v) :: rest else (k', v') :: map_set k v rest
  end.

Fixpoint map_get {V : Type} (k : Z) (l : list (Z * V)) : option V :=
  match l with
  | [] => None
  | (k', v') :: rest => if decide (k' = k) then Some v' else map_get k rest
  end.

Definition newAccounts {I : Type} : Accounts I := mkAccounts [] 1.

Definition createUser {I : Type} (t : Accounts I) (insertUser : I)
  : Accounts I * Account I :=
  let i := userIdCounter t in
  let user := mkAccount insertUser i in
  (mkAccounts (map_set i user (users t)) (js_incr i), user).

Definition getUser {I : Type} (t : Accounts I) (i : Z) : option (Account I) :=
  map_get i (users t).

Definition getUserByUsername {I : Type} (username : I → string)
    (t : Accounts I) (name : string) : option (Account I) :=
  List.find (λ user, bool_decide (username (account_fields user) = name))
    (users t).*2.

(** Successive calls, each on the store the previous one left. *)
Definition createUsers {I : Type} (l : list I) (t : Accounts I) : Accounts I :=
  foldl (λ acc x, (createUser acc x).1) t l.

Definition createReports (l : list InsertReport) (m : MemStorage)
  : MemStorage :=
  foldl (λ acc r, (createReport acc r).1) m l.

(** The entry that the [n]-th call (counting from 0) on a new store files. *)
Definition nth_account {I : Type} (n : nat) (x : I) : Z * Account I :=
  (Z.of_nat n + 1, mkAccount x (Z.of_nat n + 1))%Z.

(** ** Proof automation for registry lookups *)

Ltac lookup_hyps :=
  repeat match goal with
  | H : context [alter _ _ _ !! _] |- _ => rewrite lookup_alter in H
  | H : context [delete _ _ !! _] |- _ => rewrite lookup_delete in H
  | H : context [<[_ := _]> _ !! _] |- _ => rewrite lookup_insert in H
  | H : context [decide (?a = ?b)] |- _ => destruct (decide (a = b)); subst
  | H : _ <$> ?o = Some _ |- _ =>
      let E := fresh "E" in destruct o eqn:E; simpl in H
  end; simplify_eq/=.

Ltac lookup_goal :=
  repeat match goal with
  | |- context [alter _ _ _ !! _] => rewrite lookup_alter
  | |- context [delete _ _ !! _] => rewrite lookup_delete
  | |- context [<[_ := _]> _ !! _] => rewrite lookup_insert
  | |- context [decide (?a = ?b)] => destruct (decide (a = b)); subst
  end; simplify_eq/=.

(** ** Sets as insertion-ordered lists *)

Lemma elem_of_set_delete x y l : y ∈ set_delete x l ↔ y ∈ l ∧ y ≠ x.
Proof. unfold set_delete. rewrite list_elem_of_filter. tauto. Qed.

Lemma elem_of_set_add x y l : y ∈ set_add x l ↔ y ∈ l ∨ y = x.
Proof.
  unfold set_add. case_decide as Hin.
  - split; [tauto | intros [? | ->]; done].
  - rewrite elem_of_app, list_elem_of_singleton. tauto.
Qed.

Lemma set_delete_idem x l : set_delete x (set_delete x l) = set_delete x l.
Proof.
  unfold set_delete. induction l as [| a l IH]; [done |].
  rewrite filter_cons. case_decide; [| done].
  rewrite filter_cons. case_decide; [| done]. by f_equal.
Qed.

Lemma NoDup_set_delete x l : NoDup l → NoDup (set_delete x l).
Proof. apply NoDup_filter. Qed.

Lemma NoDup_set_add x l : NoDup l → NoDup (set_add x l).
Proof.
  intros Hl. unfold set_add. case_decide as Hin; [done |].
  apply NoDup_app. split; [done |]. split; [| apply NoDup_singleton].
  intros y Hy ->%list_elem_of_singleton. done.
Qed.

(** ** The waiting pools *)

Lemma queued_remove s x k :
  queued (waitingUsers (removeFromWaitingPools s x)) k
  ↔ queued (waitingUsers s) k ∧ k ≠ x.
Proof.
  unfold queued, removeFromWaitingPools. simpl.
  rewrite !elem_of_set_delete. tauto.
Qed.

Lemma membership_remove s x k :
  (membership (waitingUsers (removeFromWaitingPools s x)) k
   ≤ membership (waitingUsers s) k)%nat.
Proof.
  unfold membership, removeFromWaitingPools. simpl.
  repeat case_decide; rewrite ?elem_of_set_delete in *; try lia; tauto.
Qed.

Lemma membership_0 w k : membership w k = 0 ↔ ¬ queued w k.
Proof. unfold membership, queued. repeat case_decide; split; try lia; tauto. Qed.

Lemma addToWaitingPool_users s x :
  activeUsers (addToWaitingPool s x) = activeUsers s.
Proof. unfold addToWaitingPool. by destruct (activeUsers s !! x). Qed.

Lemma addToWaitingPool_storage s x :
  storage (addToWaitingPool s x) = storage s.
Proof. unfold addToWaitingPool. by destruct (activeUsers s !! x). Qed.

Lemma queued_add s x k u :
  activeUsers s !! x = Some u →
  queued (waitingUsers (addToWaitingPool s x)) k
  ↔ (queued (waitingUsers s) k ∧ k ≠ x) ∨ k = x.
Proof.
  intros Hx. unfold addToWaitingPool. rewrite Hx.
  unfold queued, removeFromWaitingPools.
  repeat case_decide; simpl;
    rewrite ?elem_of_set_add, ?elem_of_set_delete; tauto.
Qed.

Lemma membership_le_1 w k :
  (membership w k ≤ 1)%nat
  ↔ ¬ (k ∈ male w ∧ k ∈ female w) ∧ ¬ (k ∈ male w ∧ k ∈ both w)
    ∧ ¬ (k ∈ female w ∧ k ∈ both w).
Proof. unfold membership. repeat case_decide; split; try lia; tauto. Qed.

Lemma membership_add s x k :
  (∀ j, (membership (waitingUsers s) j ≤ 1)%nat) →
  (membership (waitingUsers (addToWaitingPool s x)) k ≤ 1)%nat.
Proof.
  intros Hex. pose proof (Hex k) as Hk. revert Hk.
  rewrite !membership_le_1. unfold addToWaitingPool.
  destruct (activeUsers s !! x) as [u |]; [| done].
  unfold removeFromWaitingPools.
  repeat case_decide; simpl;
    rewrite ?elem_of_set_add, ?elem_of_set_delete; tauto.
Qed.

Lemma nodup_pools_remove s x :
  nodup_pools (waitingUsers s) →
  nodup_pools (waitingUsers (removeFromWaitingPools s x)).
Proof.
  intros (Hm & Hf & Hb). unfold removeFromWaitingPools.
  split_and!; by apply NoDup_set_delete.
Qed.

Lemma nodup_pools_add s x :
  nodup_pools (waitingUsers s) →
  nodup_pools (waitingUsers (addToWaitingPool s x)).
Proof.
  intros Hw. unfold addToWaitingPool.
  destruct (activeUsers s !! x) as [u |]; [| done].
  destruct (nodup_pools_remove s x Hw) as (Hm & Hf & Hb).
  repeat case_decide; split_and!; simpl; try done; by apply NoDup_set_add.
Qed.

(** ** The match engine *)

Lemma firstOther_Some sid l m :
  firstOther sid l = Some m
  ↔ ∃ l1 l2, l = l1 ++ m :: l2 ∧ m ≠ sid ∧ ∀ x, x ∈ l1 → x = sid.
Proof.
  induction l as [| a l IH]; simpl.
  - split; [done |]. intros (l1 & l2 & Hl & _). by destruct l1.
  - case_decide as Ha.
    + split.
      * intros [= <-]. exists [], l. split_and!; [done | done |].
        intros x Hx. by apply elem_of_nil in Hx.
      * intros ([| b l1] & l2 & Hl & Hm & Hpre); simplify_eq/=; [done |].
        destruct Ha. apply Hpre. apply elem_of_cons. by left.
    + subst a. rewrite IH. split.
      * intros (l1 & l2 & -> & Hm & Hpre). exists (sid :: l1), l2.
        split_and!; [done | done |].
        intros x [-> | Hx]%elem_of_cons; [done | by apply Hpre].
      * intros ([| b l1] & l2 & Hl & Hm & Hpre); simplify_eq/=.
        exists l1, l2. split_and!; [done | done |].
        intros x Hx. apply Hpre. apply elem_of_cons. by right.
Qed.

Lemma firstOther_elem sid l m : firstOther sid l = Some m → m ∈ l ∧ m ≠ sid.
Proof.
  intros (l1 & l2 & -> & Hm & _)%firstOther_Some. split; [| done].
  apply elem_of_app. right. apply elem_of_cons. by left.
Qed.

Lemma potentialMatches_queued w g k : k ∈ potentialMatches w g → queued w k.
Proof.
  unfold potentialMatches, queued. repeat case_decide; rewrite ?elem_of_app; tauto.
Qed.

Lemma countryOk_region_compatible m p c cand q :
  m !! c = Some cand → preferences cand = Some q →
  countryOk p q = true ↔ region_compatible m p c.
Proof.
  intros Hc Hq. unfold countryOk, region_compatible. rewrite Hc, Hq.
  rewrite orb_true_iff, !bool_decide_eq_true. done.
Qed.

(** The filter of lines 53-56 throws exactly when some candidate's
    preferences cannot be read, and otherwise keeps the compatible ones. *)
Lemma countryFilter_spec m p l :
  countryFilter m p l
  = if decide (Exists (unreadable m) l) then Thrown
    else Returned (filter (region_compatible m p) l).
Proof.
  induction l as [| c l IH]; cbn [countryFilter].
  - rewrite decide_False; [done |]. by intros ?%Exists_nil.
  - rewrite filter_cons.
    destruct (m !! c) as [cand |] eqn:Hc.
    + destruct (preferences cand) as [q |] eqn:Hq.
      * rewrite IH. destruct (decide (Exists (unreadable m) l)) as [Hex | Hex].
        -- rewrite decide_True; [done |]. by apply Exists_cons_tl.
        -- rewrite decide_False.
           2:{ intros [Hbad | Hbad]%Exists_cons; [| done].
               unfold unreadable in Hbad. rewrite Hc in Hbad. congruence. }
           pose proof (countryOk_region_compatible m p c cand q Hc Hq) as Hok.
           destruct (countryOk p q); case_decide; try done.
           ++ destruct H. by apply Hok.
           ++ assert (false = true) by by apply Hok. done.
      * rewrite decide_True; [done |]. apply Exists_cons_hd.
        unfold unreadable. by rewrite Hc.
    + rewrite IH.
      assert (¬ unreadable m c) as Hread
        by (unfold unreadable; rewrite Hc; tauto).
      assert (¬ region_compatible m p c) as Hrc
        by (unfold region_compatible; rewrite Hc; tauto).
      rewrite (decide_False (P := region_compatible m p c)) by done.
      destruct (decide (Exists (unreadable m) l)) as [Hex | Hex].
      * rewrite decide_True; [done |]. by apply Exists_cons_tl.
      * rewrite decide_False; [done |].
        intros [Hbad | Hbad]%Exists_cons; done.
Qed.

Lemma findMatch_Some s sid m :
  findMatch s sid = Returned (Some m) → m ≠ sid ∧ queued (waitingUsers s) m.
Proof.
  unfold findMatch. destruct (activeUsers s !! sid) as [user |]; [| done].
  destruct (preferences user) as [p |]; [| done].
  case_decide.
  - rewrite countryFilter_spec. case_decide; [done |].
    intros [= [Hin Hne]%firstOther_elem]. split; [done |].
    apply list_elem_of_filter in Hin as [_ Hin].
    by eapply potentialMatches_queued.
  - intros [= [Hin Hne]%firstOther_elem]. split; [done |].
    by eapply potentialMatches_queued.
Qed.

Lemma truthy_Some v x : truthy v = Some x ↔ v = Some x ∧ x ≠ EmptyString.
Proof.
  unfold truthy. destruct v as [y |].
  - case_decide as Hy; split.
    + done.
    + intros [[= ->] Hne]. done.
    + intros [= ->]. done.
    + intros [[= ->] _]. done.
  - split; [done | intros [? _]; done].
Qed.

(** ** Pairing and unpairing keep the state consistent *)

(** Clearing both ends of a pairing. *)
Lemma consistent_unlink s a u p :
  consistent s → activeUsers s !! a = Some u → currentPeer u = Some p →
  consistent (with_users s
    (alter (set_currentPeer None) a
       (alter (set_currentPeer None) p (activeUsers s)))).
Proof.
  intros [Hids Hpeers Hq Hex Hnd] Ha Hp.
  destruct (Hpeers _ _ _ Ha Hp) as (Hne & v & Hv & Hvp).
  split; simpl; [| | | done | done].
  - intros k u' Hk. lookup_hyps; eauto.
  - intros k u' q Hk Hcp. lookup_hyps.
    destruct (Hpeers _ _ _ Hk Hcp) as (Hqk & w & Hw & Hwk).
    split; [done |]. exists w. lookup_goal; done.
  - intros k Hk. destruct (Hq _ Hk) as (w & Hw & Hwc).
    lookup_goal; rewrite ?Hw; simpl; eauto.
Qed.

(** Pairing two distinct unpaired users and taking both out of the pools. *)
Lemma consistent_link s a b u v :
  consistent s → a ≠ b →
  activeUsers s !! a = Some u → currentPeer u = None →
  activeUsers s !! b = Some v → currentPeer v = None →
  consistent
    (removeFromWaitingPools
       (removeFromWaitingPools
          (with_users s
             (alter (set_currentPeer (Some a)) b
                (alter (set_currentPeer (Some b)) a (activeUsers s)))) a) b).
Proof.
  intros [Hids Hpeers Hq Hex Hnd] Hab Ha Hacp Hb Hbcp.
  split.
  - simpl. intros k u' Hk. lookup_hyps; eauto.
  - simpl. intros k u' q Hk Hcp. lookup_hyps.
    + split; [done |]. exists (set_currentPeer (Some k) u).
      lookup_goal. by rewrite Ha.
    + split; [done |]. exists (set_currentPeer (Some k) v).
      lookup_goal. by rewrite Hb.
    + destruct (Hpeers _ _ _ Hk Hcp) as (Hqk & w & Hw & Hwk).
      split; [done |]. exists w. lookup_goal; done.
  - intros k Hk. apply queued_remove in Hk as [Hk Hkb].
    apply queued_remove in Hk as [Hk Hka]. simpl in Hk.
    destruct (Hq _ Hk) as (w & Hw & Hwc).
    exists w. simpl. lookup_goal; done.
  - intros k.
    etrans; [apply membership_remove |].
    etrans; [apply membership_remove |]. apply Hex.
  - by do 2 apply nodup_pools_remove.
Qed.

(** Forgetting an id: out of the pools and out of the registry. *)
Lemma consistent_forget s a :
  consistent s →
  (∀ u, activeUsers s !! a = Some u → currentPeer u = None) →
  consistent
    (with_users (removeFromWaitingPools s a) (delete a (activeUsers s))).
Proof.
  intros [Hids Hpeers Hq Hex Hnd] Hfree. split.
  - simpl. intros k u Hk. lookup_hyps; eauto.
  - simpl. intros k u q Hk Hcp. lookup_hyps.
    destruct (Hpeers _ _ _ Hk Hcp) as (Hqk & w & Hw & Hwk).
    split; [done |]. exists w. lookup_goal; [| done].
    rewrite (Hfree _ Hw) in Hwk. done.
  - intros k [Hk Hka]%queued_remove.
    destruct (Hq _ Hk) as (w & Hw & Hwc).
    exists w. simpl. by rewrite lookup_delete_ne.
  - intros k. etrans; [apply membership_remove |]. apply Hex.
  - by apply nodup_pools_remove.
Qed.

(** A peer recorded in a consistent state is a connected socket, so its id
    is not empty and the [if (user.currentPeer)] tests see it. *)
Lemma consistent_truthy s k u :
  consistent s → activeUsers s !! k = Some u →
  truthy (currentPeer u) = currentPeer u.
Proof.
  intros Hc Hk. destruct (currentPeer u) as [p |] eqn:Hp; [| done].
  destruct (c_peers _ Hc _ _ _ Hk Hp) as (_ & v & Hv & _).
  destruct (c_ids _ Hc _ _ Hv) as [_ Hne].
  simpl. by case_decide.
Qed.

Lemma unpair_before_match_consistent s sid user :
  consistent s → activeUsers s !! sid = Some user →
  consistent (unpair_before_match s sid user).1.
Proof.
  intros Hc Hsid. unfold unpair_before_match.
  rewrite (consistent_truthy _ _ _ Hc Hsid).
  destruct (currentPeer user) as [p |] eqn:Hp; [| done].
  destruct (c_peers _ Hc _ _ _ Hsid Hp) as (_ & v & Hv & _).
  rewrite Hv. simpl. by eapply consistent_unlink.
Qed.

Lemma unpair_before_match_frame s sid user :
  waitingUsers (unpair_before_match s sid user).1 = waitingUsers s
  ∧ storage (unpair_before_match s sid user).1 = storage s.
Proof.
  unfold unpair_before_match.
  destruct (truthy (currentPeer user)) as [p |]; [| done].
  by destruct (activeUsers s !! p).
Qed.

Lemma unpair_before_match_unpaired s sid user :
  consistent s → activeUsers s !! sid = Some user →
  ∃ u1, activeUsers (unpair_before_match s sid user).1 !! sid = Some u1
        ∧ currentPeer u1 = None.
Proof.
  intros Hc Hsid. unfold unpair_before_match.
  rewrite (consistent_truthy _ _ _ Hc Hsid).
  destruct (currentPeer user) as [p |] eqn:Hp; [| by exists user].
  destruct (c_peers _ Hc _ _ _ Hsid Hp) as (Hne & v & Hv & _).
  rewrite Hv. simpl. exists (set_currentPeer None user).
  rewrite lookup_alter_eq, lookup_alter_ne, Hsid; done.
Qed.

Lemma consistent_enqueue s sid u :
  consistent s → activeUsers s !! sid = Some u → currentPeer u = None →
  consistent (addToWaitingPool s sid).
Proof.
  intros [Hids Hpeers Hq Hex Hnd] Hsid Hcp.
  split; rewrite ?addToWaitingPool_users; [done | done | | |].
  - intros k [[Hk _] | ->]%(queued_add _ _ _ _ Hsid); eauto.
  - intros k. by apply membership_add.
  - by apply nodup_pools_add.
Qed.

Lemma on_find_peer_consistent s sid :
  consistent s → consistent (st (on_find_peer s sid)).
Proof.
  intros Hc. unfold on_find_peer.
  destruct (activeUsers s !! sid) as [user |] eqn:Hsid; [| done].
  pose proof (unpair_before_match_consistent _ _ _ Hc Hsid) as Hc1.
  destruct (unpair_before_match_unpaired _ _ _ Hc Hsid) as (u1 & Hu1 & Hu1c).
  destruct (unpair_before_match s sid user) as [s1 out]. simpl in *.
  destruct (findMatch s1 sid) as [found |] eqn:Hfound; [| done].
  destruct (truthy found) as [matchId |] eqn:Hm; simpl.
  - apply truthy_Some in Hm as [-> _].
    apply findMatch_Some in Hfound as [Hne Hqm].
    destruct (c_queued _ Hc1 _ Hqm) as (v & Hv & Hvc).
    rewrite Hv. simpl.
    by apply (consistent_link s1 sid matchId u1 v).
  - by eapply consistent_enqueue.
Qed.

Lemma on_connection_consistent s sid :
  consistent s → sid ≠ EmptyString → activeUsers s !! sid = None →
  consistent (st (on_connection s sid)).
Proof.
  intros [Hids Hpeers Hq Hex Hnd] Hne Hfresh. split; simpl; [| | | done | done].
  - intros k u Hk. lookup_hyps; eauto.
  - intros k u p Hk Hcp. lookup_hyps.
    destruct (Hpeers _ _ _ Hk Hcp) as (Hpk & w & Hw & Hwk).
    split; [done |]. exists w. lookup_goal; done.
  - intros k Hk. destruct (Hq _ Hk) as (w & Hw & Hwc).
    exists w. lookup_goal; done.
Qed.

Lemma on_update_preferences_consistent s sid p :
  consistent s → consistent (st (on_update_preferences s sid p)).
Proof.
  intros [Hids Hpeers Hq Hex Hnd]. unfold on_update_preferences.
  destruct (activeUsers s !! sid) as [user |] eqn:Hsid; [| done].
  assert (∀ k u', alter (set_preferences p) sid (activeUsers s) !! k = Some u' →
                  ∃ u, activeUsers s !! k = Some u ∧ id u' = id u
                       ∧ currentPeer u' = currentPeer u) as Hback.
  { intros k u' [(-> & u & Hu & ->) | [_ Hk]]%lookup_alter_Some; eauto. }
  assert (∀ k u, activeUsers s !! k = Some u →
                 ∃ u', alter (set_preferences p) sid (activeUsers s) !! k = Some u'
                       ∧ currentPeer u' = currentPeer u) as Hforth.
  { intros k u Hk. rewrite lookup_alter. case_decide as Heq.
    - subst k. rewrite Hk. by eexists.
    - by exists u. }
  split; simpl; [| | | done | done].
  - intros k u' Hk. destruct (Hback _ _ Hk) as (u & Hu & -> & _). eauto.
  - intros k u' q Hk Hcp. destruct (Hback _ _ Hk) as (u & Hu & _ & Hcp').
    rewrite Hcp' in Hcp.
    destruct (Hpeers _ _ _ Hu Hcp) as (Hqk & w & Hw & Hwk).
    split; [done |]. destruct (Hforth _ _ Hw) as (w' & Hw' & Hwcp).
    exists w'. split; congruence.
  - intros k Hk. destruct (Hq _ Hk) as (w & Hw & Hwc).
    destruct (Hforth _ _ Hw) as (w' & Hw' & Hwcp).
    exists w'. split; congruence.
Qed.

Lemma relay_state kind s sid payload : st (relay kind s sid payload) = s.
Proof.
  unfold relay. destruct (activeUsers s !! sid) as [user |]; [| done].
  by destruct (truthy (currentPeer user)).
Qed.

Lemma on_report_user_consistent s sid payload now :
  consistent s → consistent (st (on_report_user s sid payload now)).
Proof.
  intros Hc. unfold on_report_user.
  destruct payload as [[reason details] |]; [| done].
  destruct (activeUsers s !! sid) as [user |] eqn:Hsid; [| done].
  rewrite (consistent_truthy _ _ _ Hc Hsid).
  destruct (currentPeer user) as [p |] eqn:Hp; [| done].
  destruct (c_peers _ Hc _ _ _ Hsid Hp) as (_ & v & Hv & _).
  rewrite Hv. simpl.
  pose proof (consistent_unlink _ _ _ _ Hc Hsid Hp) as [? ? ? ? ?].
  by split.
Qed.

Lemma on_disconnect_consistent s sid :
  consistent s → consistent (st (on_disconnect s sid)).
Proof.
  intros Hc. unfold on_disconnect.
  destruct (activeUsers s !! sid) as [user |] eqn:Hsid.
  - rewrite (consistent_truthy _ _ _ Hc Hsid).
    destruct (currentPeer user) as [p |] eqn:Hp.
    + destruct (c_peers _ Hc _ _ _ Hsid Hp) as (Hne & v & Hv & Hvc).
      rewrite Hv. simpl.
      rewrite <- (delete_alter_eq _ sid (set_currentPeer None)).
      apply (consistent_forget _ sid (consistent_unlink _ _ _ _ Hc Hsid Hp)).
      simpl. intros u.
      rewrite lookup_alter_eq, lookup_alter_ne, Hsid by done.
      by intros [= <-].
    + pose proof (consistent_forget s sid Hc) as Hforget.
      destruct s as [m w store]. apply Hforget.
      intros u Hu. simpl in *. congruence.
  - pose proof (consistent_forget s sid Hc) as Hforget.
    destruct s as [m w store]. apply Hforget.
    intros u Hu. simpl in *. congruence.
Qed.

Lemma handle_consistent s sid e :
  consistent s → admissible s sid e → consistent (st (handle s sid e)).
Proof.
  intros Hc Ha. destruct e; simpl.
  - destruct Ha. by apply on_connection_consistent.
  - by apply on_update_preferences_consistent.
  - by apply on_find_peer_consistent.
  - unfold on_offer. by rewrite relay_state.
  - unfold on_answer. by rewrite relay_state.
  - unfold on_ice_candidate. by rewrite relay_state.
  - unfold on_chat_message. by rewrite relay_state.
  - by apply on_report_user_consistent.
  - by apply on_disconnect_consistent.
Qed.

Lemma init_consistent : consistent init.
Proof.
  split; simpl.
  - intros k u Hk. by rewrite lookup_empty in Hk.
  - intros k u p Hk. by rewrite lookup_empty in Hk.
  - intros k [Hk | [Hk | Hk]]; by apply elem_of_nil in Hk.
  - intros k. apply membership_le_1. simpl.
    split_and!; intros [Hk _]; by apply elem_of_nil in Hk.
  - split_and!; apply NoDup_nil_2.
Qed.

Lemma reachable_consistent s : reachable s → consistent s.
Proof.
  induction 1 as [| s sid e _ IH Ha]; [apply init_consistent |].
  by apply handle_consistent.
Qed.

(** No event sequence makes a user its own peer. *)
Lemma no_self_peer s k u :
  reachable s → activeUsers s !! k = Some u → currentPeer u ≠ Some k.
Proof.
  intros Hc%reachable_consistent Hk Hp.
  by destruct (c_peers _ Hc _ _ _ Hk Hp) as [Hne _].
Qed.

(** ** The declared gender never changes *)

Lemma keeps_gender_refl m : keeps_gender m m.
Proof. intros k u' Hk. by exists u'. Qed.

Lemma keeps_gender_trans m1 m2 m3 :
  keeps_gender m1 m2 → keeps_gender m2 m3 → keeps_gender m1 m3.
Proof.
  intros H12 H23 k u3 Hk. destruct (H23 _ _ Hk) as (u2 & Hk2 & Hg2).
  destruct (H12 _ _ Hk2) as (u1 & Hk1 & Hg1). exists u1. split; congruence.
Qed.

Lemma keeps_gender_alter f m i :
  (∀ u, gender (f u) = gender u) → keeps_gender m (alter f i m).
Proof.
  intros Hf k u' Hk. apply lookup_alter_Some in Hk as [(-> & u & Hu & ->) | [_ Hk]].
  - exists u. by rewrite Hf.
  - by exists u'.
Qed.

Lemma keeps_gender_delete m i : keeps_gender m (delete i m).
Proof.
  intros k u' Hk. apply lookup_delete_Some in Hk as [_ Hk]. by exists u'.
Qed.

Lemma unpair_before_match_gender s sid user :
  keeps_gender (activeUsers s) (activeUsers (unpair_before_match s sid user).1).
Proof.
  unfold unpair_before_match.
  destruct (truthy (currentPeer user)) as [p |]; [| apply keeps_gender_refl].
  destruct (activeUsers s !! p); simpl.
  - eapply keeps_gender_trans; by apply keeps_gender_alter.
  - by apply keeps_gender_alter.
Qed.

Lemma on_find_peer_gender s sid :
  keeps_gender (activeUsers s) (activeUsers (st (on_find_peer s sid))).
Proof.
  unfold on_find_peer.
  destruct (activeUsers s !! sid) as [user |]; [| apply keeps_gender_refl].
  pose proof (unpair_before_match_gender s sid user) as H1.
  destruct (unpair_before_match s sid user) as [s1 out]. simpl in H1.
  destruct (findMatch s1 sid) as [found |]; [| done].
  destruct (truthy found) as [matchId |]; simpl.
  - destruct (activeUsers s1 !! matchId); simpl.
    + eapply keeps_gender_trans; [exact H1 |].
      eapply keeps_gender_trans; by apply keeps_gender_alter.
    + eapply keeps_gender_trans; [exact H1 |]. by apply keeps_gender_alter.
  - by rewrite addToWaitingPool_users.
Qed.

Lemma on_report_user_gender s sid payload now :
  keeps_gender (activeUsers s)
    (activeUsers (st (on_report_user s sid payload now))).
Proof.
  unfold on_report_user.
  destruct payload as [[reason details] |]; [| apply keeps_gender_refl].
  destruct (activeUsers s !! sid) as [user |]; [| apply keeps_gender_refl].
  destruct (truthy (currentPeer user)) as [p |]; [| apply keeps_gender_refl].
  destruct (activeUsers s !! p); simpl.
  - eapply keeps_gender_trans; by apply keeps_gender_alter.
  - by apply keeps_gender_alter.
Qed.

Lemma on_disconnect_gender s sid :
  keeps_gender (activeUsers s) (activeUsers (st (on_disconnect s sid))).
Proof.
  unfold on_disconnect.
  destruct (activeUsers s !! sid) as [user |]; simpl;
    [| apply keeps_gender_delete].
  destruct (truthy (currentPeer user)) as [p |]; simpl;
    [| apply keeps_gender_delete].
  destruct (activeUsers s !! p); simpl; [| apply keeps_gender_delete].
  eapply keeps_gender_trans; [| apply keeps_gender_delete].
  by apply keeps_gender_alter.
Qed.

Lemma on_update_preferences_gender s sid p :
  keeps_gender (activeUsers s)
    (activeUsers (st (on_update_preferences s sid p))).
Proof.
  unfold on_update_preferences.
  destruct (activeUsers s !! sid); [| apply keeps_gender_refl].
  by apply keeps_gender_alter.
Qed.

(** After its connection no handler touches a user's [gender]. *)
Lemma handle_gender s sid e :
  e ≠ Connection →
  keeps_gender (activeUsers s) (activeUsers (st (handle s sid e))).
Proof.
  intros He. destruct e; simpl; [done | ..].
  - apply on_update_preferences_gender.
  - apply on_find_peer_gender.
  - unfold on_offer. rewrite relay_state. apply keeps_gender_refl.
  - unfold on_answer. rewrite relay_state. apply keeps_gender_refl.
  - unfold on_ice_candidate. rewrite relay_state. apply keeps_gender_refl.
  - unfold on_chat_message. rewrite relay_state. apply keeps_gender_refl.
  - apply on_report_user_gender.
  - apply on_disconnect_gender.
Qed.

(** The pools a handler leaves behind, for users that all carry "both". *)
Lemma addToWaitingPool_inert s sid :
  inert s → male (waitingUsers (addToWaitingPool s sid)) = []
            ∧ female (waitingUsers (addToWaitingPool s sid)) = [].
Proof.
  intros [Hg Hm Hf]. unfold addToWaitingPool.
  destruct (activeUsers s !! sid) as [user |] eqn:Hsid; [| done].
  rewrite (Hg _ _ Hsid). simpl. by rewrite Hm, Hf.
Qed.

Lemma handle_pools_inert s sid e :
  inert s →
  male (waitingUsers (st (handle s sid e))) = []
  ∧ female (waitingUsers (st (handle s sid e))) = [].
Proof.
  intros Hi. pose proof Hi as [Hg Hm Hf]. destruct e; simpl.
  - done.
  - unfold on_update_preferences. by destruct (activeUsers s !! sid).
  - unfold on_find_peer. destruct (activeUsers s !! sid) as [user |]; [| done].
    pose proof (unpair_before_match_frame s sid user) as [Hw _].
    pose proof (unpair_before_match_gender s sid user) as Hg1.
    destruct (unpair_before_match s sid user) as [s1 out]. simpl in *.
    destruct (findMatch s1 sid) as [found |]; simpl; [| by rewrite Hw].
    destruct (truthy found) as [matchId |]; simpl.
    + destruct (activeUsers s1 !! matchId); simpl; by rewrite Hw, Hm, Hf.
    + apply addToWaitingPool_inert. split; [| by rewrite Hw ..].
      intros k u' Hk. destruct (Hg1 _ _ Hk) as (u & Hu & ->). by eapply Hg.
  - unfold on_offer. by rewrite relay_state.
  - unfold on_answer. by rewrite relay_state.
  - unfold on_ice_candidate. by rewrite relay_state.
  - unfold on_chat_message. by rewrite relay_state.
  - unfold on_report_user. destruct payload as [[reason details] |]; [| done].
    destruct (activeUsers s !! sid) as [user |]; [| done].
    destruct (truthy (currentPeer user)) as [p |]; [| done].
    by destruct (activeUsers s !! p).
  - unfold on_disconnect.
    destruct (activeUsers s !! sid) as [user |]; simpl; [| by rewrite Hm, Hf].
    destruct (truthy (currentPeer user)) as [p |]; simpl; by rewrite Hm, Hf.
Qed.

Lemma handle_inert s sid e : inert s → inert (st (handle s sid e)).
Proof.
  intros Hi. destruct (handle_pools_inert s sid e Hi) as [Hm Hf].
  split; [| done | done].
  assert (e = Connection ∨ e ≠ Connection) as [-> | He]
    by (destruct e; (by left) || (by right)).
  - simpl. intros k u [[_ <-] | [_ Hk]]%lookup_insert_Some; [done |].
    by eapply i_gender.
  - intros k u' Hk. destruct (handle_gender s sid e He _ _ Hk) as (u & Hu & ->).
    by eapply i_gender.
Qed.

Lemma reachable_inert s : reachable s → inert s.
Proof.
  induction 1 as [| s sid e _ IH _]; [| by apply handle_inert].
  split; [| done ..]. intros k u Hk. simpl in Hk. by rewrite lookup_empty in Hk.
Qed.

(** ** Disconnecting *)

Lemma on_disconnect_absent s sid :
  activeUsers s !! sid = None →
  on_disconnect s sid = ok (removeFromWaitingPools s sid) [].
Proof.
  intros Hgone. unfold on_disconnect. rewrite Hgone. simpl.
  rewrite (delete_id _ _ Hgone). by destruct s.
Qed.

Lemma on_disconnect_gone s sid :
  activeUsers (st (on_disconnect s sid)) !! sid = None.
Proof.
  unfold on_disconnect.
  destruct (activeUsers s !! sid) as [user |]; simpl; [| apply lookup_delete_eq].
  destruct (truthy (currentPeer user)); apply lookup_delete_eq.
Qed.

Lemma on_disconnect_pools s sid :
  waitingUsers (st (on_disconnect s sid))
  = waitingUsers (removeFromWaitingPools s sid).
Proof.
  unfold on_disconnect. destruct (activeUsers s !! sid) as [user |]; [| done].
  by destruct (truthy (currentPeer user)).
Qed.

(** ** Exclusive pools, from any state *)

Lemma handle_exclusive s sid e :
  (∀ k, membership (waitingUsers s) k ≤ 1) →
  ∀ k, membership (waitingUsers (st (handle s sid e))) k ≤ 1.
Proof.
  intros Hex k. destruct e; simpl.
  - apply Hex.
  - unfold on_update_preferences. destruct (activeUsers s !! sid); apply Hex.
  - unfold on_find_peer.
    destruct (activeUsers s !! sid) as [user |]; [| apply Hex].
    pose proof (unpair_before_match_frame s sid user) as [Hw _].
    destruct (unpair_before_match s sid user) as [s1 out]. simpl in Hw.
    destruct (findMatch s1 sid) as [found |];
      [| simpl; rewrite Hw; apply Hex].
    destruct (truthy found) as [matchId |]; cbn [st ok].
    + destruct (activeUsers s1 !! matchId); cbn [st ok].
      * etrans; [apply membership_remove |].
        etrans; [apply membership_remove |]. simpl. rewrite Hw. apply Hex.
      * simpl. rewrite Hw. apply Hex.
    + apply membership_add. rewrite Hw. apply Hex.
  - unfold on_offer. rewrite relay_state. apply Hex.
  - unfold on_answer. rewrite relay_state. apply Hex.
  - unfold on_ice_candidate. rewrite relay_state. apply Hex.
  - unfold on_chat_message. rewrite relay_state. apply Hex.
  - unfold on_report_user. destruct payload as [[reason details] |]; [| apply Hex].
    destruct (activeUsers s !! sid) as [user |]; [| apply Hex].
    destruct (truthy (currentPeer user)) as [p |]; [| apply Hex].
    destruct (activeUsers s !! p); apply Hex.
  - rewrite on_disconnect_pools. etrans; [apply membership_remove | apply Hex].
Qed.

(** ** The report store *)

Lemma js_incr_spec n :
  (n < MAX_SAFE → js_incr n = n + 1)%Z ∧ (MAX_SAFE ≤ n → js_incr n = n)%Z.
Proof. unfold js_incr. case_decide; lia. Qed.

Lemma createReport_ok m r : store_ok m → store_ok (createReport m r).1.
Proof.
  intros [Hrange Hkeys]. pose proof (js_incr_spec (reportIdCounter m)) as [Hlt Hge].
  split; simpl.
  - destruct (decide (reportIdCounter m < MAX_SAFE)%Z); [rewrite Hlt | rewrite Hge]; lia.
  - intros k r' Hk. apply lookup_insert_Some in Hk as [[<- <-] | [Hne Hk]]; simpl.
    + destruct (decide (reportIdCounter m < MAX_SAFE)%Z);
        [rewrite Hlt | rewrite Hge]; lia.
    + destruct (Hkeys _ _ Hk) as (? & ? & ?).
      destruct (decide (reportIdCounter m < MAX_SAFE)%Z);
        [rewrite Hlt | rewrite Hge]; lia.
Qed.

(** Below 2^53 the counter has not been handed out yet. *)
Lemma createReport_fresh m :
  store_ok m → (reportIdCounter m < MAX_SAFE)%Z →
  reports m !! reportIdCounter m = None.
Proof.
  intros [_ Hkeys] Hlt.
  destruct (reports m !! reportIdCounter m) as [r |] eqn:Hr; [| done].
  destruct (Hkeys _ _ Hr) as (_ & _ & ?). lia.
Qed.

(** Why the bound: at 2^53 the increment of a JS number has no effect, and
    a second report filed there takes the id, and the place, of the first. *)
Example createReport_at_saturated_counter :
  let r1 := mkInsertReport "a" "b" "X" "rude" 1 in
  let r2 := mkInsertReport "b" "a" "Y" "again" 2 in
  let m0 := mkMemStorage ∅ MAX_SAFE in
  let m1 := (createReport m0 r1).1 in
  let m2 := (createReport m1 r2).1 in
  reportIdCounter m1 = MAX_SAFE
  ∧ report_id (createReport m1 r2).2 = report_id (createReport m0 r1).2
  ∧ reports m2 !! MAX_SAFE = Some (mkReport r2 MAX_SAFE)
  ∧ size (reports m2) = 1.
Proof. by vm_compute. Qed.

Lemma handle_storage s sid e :
  (∀ payload now, e ≠ ReportUser payload now) →
  storage (st (handle s sid e)) = storage s.
Proof.
  intros He.
  destruct e as [| p | | x | x | x | x | payload now |]; simpl; try done.
  - unfold on_update_preferences. by destruct (activeUsers s !! sid).
  - unfold on_find_peer. destruct (activeUsers s !! sid) as [user |]; [| done].
    pose proof (unpair_before_match_frame s sid user) as [_ Hs].
    destruct (unpair_before_match s sid user) as [s1 out]. simpl in *.
    destruct (findMatch s1 sid) as [found |]; [| done].
    destruct (truthy found) as [matchId |]; simpl.
    + by destruct (activeUsers s1 !! matchId).
    + by rewrite addToWaitingPool_storage.
  - unfold on_offer. by rewrite relay_state.
  - unfold on_answer. by rewrite relay_state.
  - unfold on_ice_candidate. by rewrite relay_state.
  - unfold on_chat_message. by rewrite relay_state.
  - by destruct (He payload now).
  - unfold on_disconnect. destruct (activeUsers s !! sid) as [user |]; [| done].
    by destruct (truthy (currentPeer user)).
Qed.

Lemma handle_store_ok s sid e :
  store_ok (storage s) → store_ok (storage (st (handle s sid e))).
Proof.
  intros Hs.
  destruct e as [| p | | x | x | x | x | payload now |];
    try (rewrite handle_storage; done).
  simpl. unfold on_report_user.
  destruct payload as [[reason details] |]; [| done].
  destruct (activeUsers s !! sid) as [user |]; [| done].
  destruct (truthy (currentPeer user)) as [q |]; [| done].
  pose proof (createReport_ok (storage s)
                (mkInsertReport sid q reason details now) Hs) as Hok.
  destruct (createReport _ _) as [store r]. simpl in Hok.
  by destruct (activeUsers s !! q).
Qed.

Lemma reachable_store_ok s : reachable s → store_ok (storage s).
Proof.
  induction 1 as [| s sid e _ IH _]; [| by apply handle_store_ok].
  split; simpl.
  - unfold MAX_SAFE. lia.
  - intros k r Hk. by rewrite lookup_empty in Hk.
Qed.

(** ** Where a handler can throw *)

(** In a consistent state [find-peer] throws only where [findMatch] does:
    the candidate it commits to is registered. *)
Lemma on_find_peer_throws s sid :
  consistent s → threw (on_find_peer s sid) = true →
  ∃ user, activeUsers s !! sid = Some user
          ∧ findMatch (unpair_before_match s sid user).1 sid = Thrown.
Proof.
  intros Hc. unfold on_find_peer.
  destruct (activeUsers s !! sid) as [user |] eqn:Hsid; [| done].
  pose proof (unpair_before_match_consistent _ _ _ Hc Hsid) as Hc1.
  intros Hthrew. exists user. split; [done |].
  destruct (unpair_before_match s sid user) as [s1 out]. simpl in *.
  destruct (findMatch s1 sid) as [found |] eqn:Hfound; [| done].
  destruct (truthy found) as [matchId |] eqn:Hm; [| done].
  apply truthy_Some in Hm as [-> _].
  apply findMatch_Some in Hfound as [_ Hqm].
  destruct (c_queued _ Hc1 _ Hqm) as (v & Hv & _). by rewrite Hv in Hthrew.
Qed.

Lemma relay_no_throw kind s sid payload : threw (relay kind s sid payload) = false.
Proof.
  unfold relay. destruct (activeUsers s !! sid) as [user |]; [| done].
  by destruct (truthy (currentPeer user)).
Qed.

Lemma on_report_user_no_throw s sid reason details now :
  threw (on_report_user s sid (Some (reason, details)) now) = false.
Proof.
  unfold on_report_user. destruct (activeUsers s !! sid) as [user |]; [| done].
  destruct (truthy (currentPeer user)) as [p |]; [| done].
  by destruct (activeUsers s !! p).
Qed.

Lemma on_disconnect_no_throw s sid : threw (on_disconnect s sid) = false.
Proof.
  unfold on_disconnect. destruct (activeUsers s !! sid) as [user |]; [| done].
  by destruct (truthy (currentPeer user)).
Qed.

(** ** Scripts of events *)

Lemma admissibleb_spec s sid e : admissibleb s sid e = true → admissible s sid e.
Proof.
  destruct e; simpl; try done.
  intros [H1 H2]%andb_true_iff. apply negb_true_iff, bool_decide_eq_false in H1.
  by apply bool_decide_eq_true in H2.
Qed.

Lemma run_reachable script s :
  reachable s → valid_script s script = true → reachable (run script s).
Proof.
  revert s. induction script as [| [sid e] rest IH]; intros s Hs; simpl; [done |].
  intros [Ha Hrest]%andb_true_iff. apply IH; [| done].
  apply reachable_step; [done | by apply admissibleb_spec].
Qed.

Lemma two_connected_reachable : reachable two_connected.
Proof. apply run_reachable; [apply reachable_init | by vm_compute]. Qed.

Lemma one_waiting_reachable : reachable one_waiting.
Proof. apply run_reachable; [apply two_connected_reachable | by vm_compute]. Qed.

Lemma paired_reachable : reachable paired.
Proof. apply run_reachable; [apply one_waiting_reachable | by vm_compute]. Qed.

Lemma b_wants_male_reachable : reachable b_wants_male.
Proof. apply run_reachable; [apply one_waiting_reachable | by vm_compute]. Qed.

(** The scenario "immediate match" of the specification. *)
Example immediate_match :
  waitingUsers one_waiting = mkWaitingUsers [] [] ["a"]
  ∧ findMatch one_waiting "b" = Returned (Some "a")
  ∧ emitted (handle one_waiting "b" FindPeer) = [ready "b"; ready "a"]
  ∧ activeUsers paired !! "a" = Some (default_user "a" (Some "b"))
  ∧ activeUsers paired !! "b" = Some (default_user "b" (Some "a"))
  ∧ waitingUsers paired = mkWaitingUsers [] [] [].
Proof. by vm_compute. Qed.

(** The country filter looks at the candidate's own desired country, and
    only when the seeker desires one: [z] skips [x], [w] takes it. *)
Example region_filter :
  valid_script init
    [("x", Connection); ("y", Connection); ("z", Connection);
     ("w", Connection);
     ("x", UpdatePreferences (Some (mkPreferences "both" "FR"))); ("x", FindPeer);
     ("y", UpdatePreferences (Some (mkPreferences "both" "DE"))); ("y", FindPeer);
     ("y", UpdatePreferences (Some (mkPreferences "both" "any")));
     ("z", UpdatePreferences (Some (mkPreferences "both" "US")))] = true
  ∧ both (waitingUsers regions) = ["x"; "y"]
  ∧ findMatch regions "z" = Returned (Some "y")
  ∧ findMatch regions "w" = Returned (Some "x")
  ∧ findMatch regions "x" = Returned (Some "y")
  ∧ findMatch regions "nobody" = Returned None.
Proof. by vm_compute. Qed.

(** The throwing branch of [find-peer] is live outside the reachable states. *)
Example ghost_waiting_throws :
  threw (on_find_peer ghost_waiting "a") = true
  ∧ (activeUsers (st (on_find_peer ghost_waiting "a")) !! "a"
     = Some (default_user "a" (Some "ghost"))).
Proof. by vm_compute. Qed.

(** Why [admissible] asks what the transport guarantees.  A second
    connection under the id of a connected socket would replace its user
    and leave the old peer pointing at it. *)
Example same_id_twice :
  activeUsers (st (on_connection paired "a")) !! "a"
  = Some (default_user "a" None)
  ∧ activeUsers (st (on_connection paired "a")) !! "b"
    = Some (default_user "b" (Some "a"))
  ∧ admissibleb paired "a" Connection = false.
Proof. by vm_compute. Qed.

(** On a state set up by hand, the specification's scenario "category filter
    excludes mismatch": no candidate for A, who is enqueued instead. *)
Example category_filter_excludes_mismatch :
  findMatch mismatch "A" = Returned None
  ∧ waitingUsers (st (on_find_peer mismatch "A"))
    = mkWaitingUsers ["B"; "A"] [] [].
Proof. by vm_compute. Qed.

(** ** The match engine against its specification *)

Lemma firstOther_head sid l : firstOther sid l = head (filter (λ c, c ≠ sid) l).
Proof.
  induction l as [| a l IH]; [done |]. simpl. rewrite filter_cons.
  by case_decide.
Qed.

(** The lists the code draws from are the candidates of the category. *)
Lemma potentialMatches_candidates w g :
  potentialMatches w g = candidates w (desiredCategory g).
Proof.
  unfold potentialMatches, candidates, desiredCategory.
  by repeat case_decide.
Qed.

Lemma head_filter_Some {A} (P : A → Prop) `{∀ x, Decision (P x)} l m :
  head (filter P l) = Some m
  ↔ ∃ l1 l2, l = l1 ++ m :: l2 ∧ P m ∧ ∀ x, x ∈ l1 → ¬ P x.
Proof.
  induction l as [| a l IH].
  - split; [done |]. intros (l1 & l2 & Hl & _). by destruct l1.
  - rewrite filter_cons. case_decide as Ha; simpl.
    + split.
      * intros [= <-]. exists [], l. split_and!; [done | done |].
        intros x Hx. by apply elem_of_nil in Hx.
      * intros ([| b l1] & l2 & Hl & Hm & Hpre); simplify_eq/=; [done |].
        destruct (Hpre b); [apply elem_of_cons; by left | done].
    + rewrite IH. split.
      * intros (l1 & l2 & -> & Hm & Hpre). exists (a :: l1), l2.
        split_and!; [done | done |].
        intros x [-> | Hx]%elem_of_cons; [done | by apply Hpre].
      * intros ([| b l1] & l2 & Hl & Hm & Hpre); simplify_eq/=; [done |].
        exists l1, l2. split_and!; [done | done |].
        intros x Hx. apply Hpre. apply elem_of_cons. by right.
Qed.

Lemma head_filter_None {A} (P : A → Prop) `{∀ x, Decision (P x)} l :
  head (filter P l) = None ↔ ∀ x, x ∈ l → ¬ P x.
Proof.
  rewrite head_None. split.
  - intros Hnil x Hx HP.
    assert (x ∈ filter P l) as Hin by by apply list_elem_of_filter.
    rewrite Hnil in Hin. by apply elem_of_nil in Hin.
  - intros Hall. destruct (filter P l) as [| a l'] eqn:Hf; [done |].
    assert (a ∈ filter P l) as [HP Hin]%list_elem_of_filter
      by (rewrite Hf; apply elem_of_cons; by left).
    by destruct (Hall a).
Qed.

Lemma findMatch_Thrown s sid seeker p :
  activeUsers s !! sid = Some seeker → preferences seeker = Some p →
  findMatch s sid = Thrown
  ↔ filter_throws s p
      (candidates (waitingUsers s) (desiredCategory (pref_gender p))).
Proof.
  intros Hsid Hp. unfold findMatch, filter_throws.
  rewrite Hsid, Hp, potentialMatches_candidates.
  case_decide as Hany; [| split; [done | tauto]].
  rewrite countryFilter_spec. case_decide; split; try done; tauto.
Qed.

Lemma findMatch_survivors s sid seeker p :
  activeUsers s !! sid = Some seeker → preferences seeker = Some p →
  ¬ filter_throws s p
      (candidates (waitingUsers s) (desiredCategory (pref_gender p))) →
  findMatch s sid
  = Returned
      (head (filter (survives s sid p)
               (candidates (waitingUsers s)
                  (desiredCategory (pref_gender p))))).
Proof.
  intros Hsid Hp Hread. unfold findMatch, filter_throws in *.
  rewrite Hsid, Hp, potentialMatches_candidates.
  case_decide as Hany.
  - rewrite countryFilter_spec. rewrite decide_False by tauto.
    rewrite firstOther_head, list_filter_filter. do 2 f_equal.
    apply list_filter_iff. unfold survives. tauto.
  - rewrite firstOther_head. do 2 f_equal.
    apply list_filter_iff. unfold survives. tauto.
Qed.

(** The two ways the match engine meets preferences it cannot read. *)
Example findMatch_unreadable_preferences :
  valid_script init
    [("x", Connection); ("z", Connection); ("x", FindPeer);
     ("x", UpdatePreferences None);
     ("z", UpdatePreferences (Some (mkPreferences "both" "US")))] = true
  ∧ findMatch null_candidate "x" = Thrown
  ∧ findMatch null_candidate "z" = Thrown
  ∧ threw (on_find_peer null_candidate "z") = true
  ∧ st (on_find_peer null_candidate "z") = null_candidate
  ∧ findMatch
      (run [("z", UpdatePreferences (Some (mkPreferences "both" "any")))]
         null_candidate) "z" = Returned (Some "x").
Proof. by vm_compute. Qed.

(** * The claims *)

(** C1 (pairing symmetry).  In every state reached from the empty state by
    complete event turns (connections arriving with the fresh, non-empty id
    the transport gives them, every other event from any id), for any two
    registered sessions [A] and [B]: [A.currentPeer == B.id] if and only if
    [B.currentPeer == A.id]. *)
Theorem pairing_symmetry s a b A B :
  reachable s →
  activeUsers s !! a = Some A → activeUsers s !! b = Some B →
  currentPeer A = Some (id B) ↔ currentPeer B = Some (id A).
Proof.
  intros Hc%reachable_consistent Ha Hb.
  destruct (c_ids _ Hc _ _ Ha) as [-> _].
  destruct (c_ids _ Hc _ _ Hb) as [-> _].
  split; intros Hp.
  - destruct (c_peers _ Hc _ _ _ Ha Hp) as (_ & v & Hv & Hvp). congruence.
  - destruct (c_peers _ Hc _ _ _ Hb Hp) as (_ & v & Hv & Hvp). congruence.
Qed.

Lemma pairing_symmetry_witness :
  currentPeer (default_user "a" (Some "b")) = Some (id (default_user "b" (Some "a")))
  ↔ currentPeer (default_user "b" (Some "a")) = Some (id (default_user "a" (Some "b"))).
Proof.
  apply (pairing_symmetry paired "a" "b").
  - exact paired_reachable.
  - vm_compute. reflexivity.
  - vm_compute. reflexivity.
Defined.

(** C2 (match-engine algorithm), as the code has it.  [findMatch] returns
    nothing for an unregistered seeker.  It throws when the seeker's stored
    preferences are [null] or [undefined], and when the seeker's desired
    country is not "any" and some registered candidate's stored preferences
    are.  Otherwise it returns the first id, in the iteration order of the
    candidates of the seeker's desired category (the "male" pool for
    "male", the "female" pool for "female", else the three pools in the
    order male, female, both), that is not the seeker's own and, when the
    seeker's desired country is not "any", belongs to a session whose own
    desired country is the seeker's or "any"; nothing when no candidate
    survives.  When the seeker desires "any" no country is compared. *)
Theorem findMatch_algorithm s sid :
  findMatch s sid = findMatch_spec s sid
  ∧ (activeUsers s !! sid = None → findMatch s sid = Returned None)
  ∧ (∀ seeker, activeUsers s !! sid = Some seeker →
       preferences seeker = None → findMatch s sid = Thrown)
  ∧ (∀ seeker p, activeUsers s !! sid = Some seeker →
       preferences seeker = Some p →
       let cands :=
         candidates (waitingUsers s) (desiredCategory (pref_gender p)) in
       (pref_gender p = "male" → cands = male (waitingUsers s))
       ∧ (pref_gender p = "female" → cands = female (waitingUsers s))
       ∧ (pref_gender p ≠ "male" → pref_gender p ≠ "female" →
          cands = male (waitingUsers s) ++ female (waitingUsers s)
                  ++ both (waitingUsers s))
       ∧ (findMatch s sid = Thrown ↔ filter_throws s p cands)
       ∧ (∀ m, findMatch s sid = Returned (Some m)
               ↔ ¬ filter_throws s p cands
                 ∧ ∃ l1 l2, cands = l1 ++ m :: l2
                            ∧ survives s sid p m
                            ∧ ∀ x, x ∈ l1 → ¬ survives s sid p x)
       ∧ (findMatch s sid = Returned None
          ↔ ¬ filter_throws s p cands
            ∧ ∀ x, x ∈ cands → ¬ survives s sid p x)
       ∧ (pref_country p = "any" →
          findMatch s sid = Returned (head (filter (λ c, c ≠ sid) cands)))).
Proof.
  split_and!.
  - unfold findMatch, findMatch_spec.
    destruct (activeUsers s !! sid) as [seeker |]; [| done].
    destruct (preferences seeker) as [p |]; [| done].
    rewrite potentialMatches_candidates.
    destruct (decide (pref_country p = "any")) as [Hany | Hany].
    + rewrite decide_False by (intros Hne; by apply Hne).
      by rewrite firstOther_head.
    + rewrite decide_True by done. rewrite countryFilter_spec.
      case_decide; [done |]. by rewrite firstOther_head.
  - intros Hsid. unfold findMatch. by rewrite Hsid.
  - intros seeker Hsid Hp. unfold findMatch. by rewrite Hsid, Hp.
  - intros seeker p Hsid Hp cands.
    pose proof (findMatch_Thrown _ _ _ _ Hsid Hp) as Hthrown. fold cands in Hthrown.
    pose proof (findMatch_survivors _ _ _ _ Hsid Hp) as Hret. fold cands in Hret.
    split_and!.
    + intros Hg. subst cands. unfold desiredCategory. by rewrite decide_True.
    + intros Hg. subst cands. unfold desiredCategory. rewrite Hg. done.
    + intros Hm Hf. subst cands. unfold desiredCategory.
      by rewrite !decide_False.
    + done.
    + intros m. split.
      * intros Hfind.
        assert (¬ filter_throws s p cands) as Hread
          by (rewrite <- Hthrown; congruence).
        split; [done |]. rewrite (Hret Hread) in Hfind.
        injection Hfind as Hfind. by apply head_filter_Some in Hfind.
      * intros [Hread Hfirst]. rewrite (Hret Hread). f_equal.
        by apply head_filter_Some.
    + split.
      * intros Hfind.
        assert (¬ filter_throws s p cands) as Hread
          by (rewrite <- Hthrown; congruence).
        split; [done |]. rewrite (Hret Hread) in Hfind.
        injection Hfind as Hfind.
        exact (proj1 (head_filter_None (survives s sid p) cands) Hfind).
      * intros [Hread Hnone]. rewrite (Hret Hread). f_equal.
        exact (proj2 (head_filter_None (survives s sid p) cands) Hnone).
    + intros Hany. rewrite Hret.
      * do 2 f_equal. apply list_filter_iff. unfold survives. tauto.
      * unfold filter_throws. tauto.
Qed.

(** Where the specification's wording fails: with stored preferences
    [null], a registered seeker for whom no candidate survives does not get
    "none", the call throws. *)
Lemma findMatch_throws_on_null_preferences :
  valid_script init [("a", Connection); ("a", UpdatePreferences None)] = true
  ∧ activeUsers null_preferences !! "a" = Some (mkUser "a" "both" None None)
  ∧ waitingUsers null_preferences = mkWaitingUsers [] [] []
  ∧ findMatch null_preferences "a" = Thrown
  ∧ findMatch null_preferences "a" ≠ Returned None.
Proof. by vm_compute. Qed.

(** C3 (paired sessions are never queued).  In every reachable state a
    registered session whose [currentPeer] is set is in none of the three
    waiting pools. *)
Theorem paired_never_queued s k u :
  reachable s →
  activeUsers s !! k = Some u → currentPeer u ≠ None →
  (k ∉ male (waitingUsers s)) ∧ (k ∉ female (waitingUsers s))
  ∧ (k ∉ both (waitingUsers s)) ∧ membership (waitingUsers s) k = 0.
Proof.
  intros Hc%reachable_consistent Hk Hp.
  assert (¬ queued (waitingUsers s) k) as Hnq.
  { intros Hq. destruct (c_queued _ Hc _ Hq) as (u' & Hu' & Hnone). congruence. }
  split_and!; [unfold queued in Hnq; tauto .. |]. by apply membership_0.
Qed.

Lemma paired_never_queued_witness :
  ("a" ∉ male (waitingUsers paired)) ∧ ("a" ∉ female (waitingUsers paired))
  ∧ ("a" ∉ both (waitingUsers paired))
  ∧ membership (waitingUsers paired) "a" = 0.
Proof.
  apply (paired_never_queued paired "a" (default_user "a" (Some "b"))).
  - exact paired_reachable.
  - vm_compute. reflexivity.
  - simpl. discriminate.
Defined.

(** C4 (pool exclusivity).  On any state, enqueueing a registered id leaves
    it in exactly one pool, the one its own [gender] selects ("male",
    "female", anything else the "both" pool), and leaves the pool membership
    of every other id as it was; enqueueing an unregistered id changes
    nothing.  Every handler keeps "at most one pool per id" once it holds,
    and in every reachable state every id is in at most one pool. *)
Theorem pool_exclusivity :
  (∀ s sid user, activeUsers s !! sid = Some user →
     let w := waitingUsers (addToWaitingPool s sid) in
     membership w sid = 1
     ∧ (sid ∈ male w ↔ gender user = "male")
     ∧ (sid ∈ female w ↔ gender user ≠ "male" ∧ gender user = "female")
     ∧ (sid ∈ both w ↔ gender user ≠ "male" ∧ gender user ≠ "female")
     ∧ (∀ k, k ≠ sid →
          (k ∈ male w ↔ k ∈ male (waitingUsers s))
          ∧ (k ∈ female w ↔ k ∈ female (waitingUsers s))
          ∧ (k ∈ both w ↔ k ∈ both (waitingUsers s))))
  ∧ (∀ s sid, activeUsers s !! sid = None → addToWaitingPool s sid = s)
  ∧ (∀ s sid e, (∀ k, membership (waitingUsers s) k ≤ 1) →
       ∀ k, membership (waitingUsers (st (handle s sid e))) k ≤ 1)
  ∧ (∀ s, reachable s → ∀ k, membership (waitingUsers s) k ≤ 1).
Proof.
  split_and!.
  - intros s sid user Hsid w. subst w. unfold addToWaitingPool. rewrite Hsid.
    unfold membership, removeFromWaitingPools.
    destruct (decide (gender user = "male")) as [Hm | Hm];
      [| destruct (decide (gender user = "female")) as [Hf | Hf]]; simpl;
      repeat case_decide;
      rewrite ?elem_of_set_add, ?elem_of_set_delete in *;
      (split_and!; [try lia; tauto | try tauto .. |
                    intros k Hk; rewrite ?elem_of_set_add, ?elem_of_set_delete;
                    tauto]).
  - intros s sid Hsid. unfold addToWaitingPool. by rewrite Hsid.
  - intros s sid e. apply handle_exclusive.
  - intros s Hc%reachable_consistent k. by apply c_excl.
Qed.

Lemma pool_exclusivity_witness :
  membership (waitingUsers (addToWaitingPool two_connected "a")) "a" = 1
  ∧ membership (waitingUsers one_waiting) "a" ≤ 1.
Proof.
  split.
  - apply (proj1 pool_exclusivity two_connected "a" (default_user "a" None)).
    vm_compute. reflexivity.
  - apply (proj2 (proj2 (proj2 pool_exclusivity)) one_waiting
             one_waiting_reachable).
Defined.

(** C5 (report behaviour), as the code has it.  A [report-user] event
    without a payload ([null] or [undefined]) throws before the registry is
    read: no state changes, no report is filed, nothing is emitted, whoever
    sent it.  In a reachable state a [report-user] event with a payload
    does not throw; from an unregistered or unpaired socket it changes
    nothing and emits nothing; from a socket paired with [p] it hands
    exactly one record to [createReport], with the reporter's id, [p], the
    given reason and details and the turn's timestamp; the store files it
    under its counter, an id no stored report has while the counter is
    below 2^53; both sessions end the turn with [currentPeer] cleared,
    nothing else in the registry or the pools changes, and the only message
    emitted is [peer-disconnected] to [p]. *)
Theorem report_user_behaviour s sid reason details now :
  reachable s →
  let o := on_report_user s sid (Some (reason, details)) now in
  (st (on_report_user s sid None now) = s
   ∧ emitted (on_report_user s sid None now) = []
   ∧ threw (on_report_user s sid None now) = true)
  ∧ threw o = false
  ∧ (activeUsers s !! sid = None
     ∨ (∃ u, activeUsers s !! sid = Some u ∧ currentPeer u = None) →
     st o = s ∧ emitted o = [])
  ∧ (∀ u p, activeUsers s !! sid = Some u → currentPeer u = Some p →
       let n := reportIdCounter (storage s) in
       let r := mkReport (mkInsertReport (id u) p reason details now) n in
       createReport (storage s) (mkInsertReport sid p reason details now)
       = (storage (st o), r)
       ∧ reports (storage (st o)) = <[n := r]> (reports (storage s))
       ∧ ((n < MAX_SAFE)%Z →
          reports (storage s) !! n = None
          ∧ (∀ k r', reports (storage s) !! k = Some r' → report_id r' ≠ n)
          ∧ size (reports (storage (st o))) = S (size (reports (storage s)))
          ∧ reportIdCounter (storage (st o)) = (n + 1)%Z)
       ∧ (∃ v, activeUsers s !! p = Some v ∧ currentPeer v = Some sid
               ∧ activeUsers (st o) !! p = Some (set_currentPeer None v))
       ∧ activeUsers (st o) !! sid = Some (set_currentPeer None u)
       ∧ (∀ k, k ≠ sid → k ≠ p → activeUsers (st o) !! k = activeUsers s !! k)
       ∧ waitingUsers (st o) = waitingUsers s
       ∧ emitted o = [peer_disconnected p]).
Proof.
  intros Hr o. pose proof (reachable_consistent _ Hr) as Hc.
  pose proof (reachable_store_ok _ Hr) as Hs. subst o.
  split; [done |]. split_and!.
  - apply on_report_user_no_throw.
  - unfold on_report_user. intros [Hsid | (u & Hsid & Hp)]; rewrite Hsid; [done |].
    by rewrite Hp.
  - intros u p Hsid Hp n r. subst n r.
    destruct (c_ids _ Hc _ _ Hsid) as [Hid _].
    destruct (c_peers _ Hc _ _ _ Hsid Hp) as (Hne & v & Hv & Hvp).
    unfold on_report_user.
    rewrite Hsid, (consistent_truthy _ _ _ Hc Hsid), Hp, Hv, Hid. simpl.
    split_and!; try done.
    + intros Hlt. pose proof (createReport_fresh _ Hs Hlt) as Hfresh.
      split_and!; [done | | by apply map_size_insert_None |].
      * intros k r' Hk. destruct (so_keys _ Hs _ _ Hk) as (-> & _ & Hlt').
        intros ->. congruence.
      * by apply js_incr_spec.
    + exists v. split_and!; [done | done |].
      by rewrite lookup_alter_ne, lookup_alter_eq, Hv.
    + by rewrite lookup_alter_eq, lookup_alter_ne, Hsid.
    + intros k Hk1 Hk2. by rewrite !lookup_alter_ne.
Qed.

Lemma report_user_behaviour_witness :
  emitted (on_report_user paired "a" (Some ("X", "rude")) 1700000000000)
  = [peer_disconnected "b"]
  ∧ reports
      (storage
         (st (on_report_user paired "a" (Some ("X", "rude")) 1700000000000)))
    = <[1%Z := mkReport (mkInsertReport "a" "b" "X" "rude" 1700000000000) 1]>
        (reports (storage paired))
  ∧ reports (storage paired) !! 1%Z = None
  ∧ reportIdCounter
      (storage
         (st (on_report_user paired "a" (Some ("X", "rude")) 1700000000000)))
    = 2%Z
  ∧ threw (on_report_user paired "a" None 1700000000000) = true.
Proof.
  pose proof (report_user_behaviour paired "a" "X" "rude" 1700000000000
                paired_reachable) as ((_ & _ & Hthrew) & _ & _ & H).
  specialize (H (default_user "a" (Some "b")) "b").
  destruct H as (_ & Hrep & Hfresh & _ & _ & _ & _ & Hout).
  - vm_compute. reflexivity.
  - reflexivity.
  - destruct Hfresh as (Hnone & _ & _ & Hcount); [reflexivity |].
    split_and!;
      [exact Hout | exact Hrep | exact Hnone | exact Hcount | exact Hthrew].
Defined.

(** Where the specification's wording fails: on an event without payload
    the reporter is registered and paired, yet no report is filed and the
    pairing stays. *)
Lemma report_without_payload_changes_nothing :
  activeUsers paired !! "a" = Some (default_user "a" (Some "b"))
  ∧ reports
      (storage (st (handle paired "a" (ReportUser None 1700000000000))))
    = reports (storage paired)
  ∧ activeUsers (st (handle paired "a" (ReportUser None 1700000000000))) !! "a"
    = Some (default_user "a" (Some "b"))
  ∧ activeUsers (st (handle paired "a" (ReportUser None 1700000000000))) !! "b"
    = Some (default_user "b" (Some "a"))
  ∧ emitted (handle paired "a" (ReportUser None 1700000000000)) = []
  ∧ threw (handle paired "a" (ReportUser None 1700000000000)) = true.
Proof. by vm_compute. Qed.

(** C6 (relay semantics).  In a reachable state an [offer], [answer],
    [ice-candidate] or [chat-message] event changes no state and does not
    throw; from an unregistered or unpaired socket it emits nothing; from a
    socket paired with [p] it emits exactly one message, to [p], under the
    event's own name and with the payload as received. *)
Theorem relay_semantics s sid e kind payload :
  reachable s → relayed e = Some (kind, payload) →
  let o := handle s sid e in
  st o = s ∧ threw o = false
  ∧ (activeUsers s !! sid = None
     ∨ (∃ u, activeUsers s !! sid = Some u ∧ currentPeer u = None) →
     emitted o = [])
  ∧ (∀ u p, activeUsers s !! sid = Some u → currentPeer u = Some p →
       emitted o = [mkEmit p kind [payload]]).
Proof.
  intros Hc%reachable_consistent He o.
  assert (handle s sid e = relay kind s sid payload) as Hrelay.
  { destruct e; simplify_eq/=; done. }
  subst o. rewrite Hrelay. split_and!.
  - apply relay_state.
  - apply relay_no_throw.
  - unfold relay. intros [Hsid | (u & Hsid & Hp)]; rewrite Hsid; [done |].
    by rewrite Hp.
  - intros u p Hsid Hp. unfold relay.
    by rewrite Hsid, (consistent_truthy _ _ _ Hc Hsid), Hp.
Qed.

Lemma relay_semantics_witness :
  emitted (handle paired "a" (ChatMessage "hello"))
  = [mkEmit "b" "chat-message" ["hello"]]
  ∧ emitted (handle one_waiting "a" (ChatMessage "hello")) = [].
Proof.
  split.
  - pose proof (relay_semantics paired "a" (ChatMessage "hello") "chat-message"
                  "hello" paired_reachable eq_refl) as (_ & _ & _ & H).
    apply (H (default_user "a" (Some "b")) "b").
    + vm_compute. reflexivity.
    + reflexivity.
  - pose proof (relay_semantics one_waiting "a" (ChatMessage "hello")
                  "chat-message" "hello" one_waiting_reachable eq_refl)
      as (_ & _ & H & _).
    apply H. right. exists (default_user "a" None).
    split; [vm_compute |]; reflexivity.
Defined.

(** C7 (idempotent disconnect).  From any state, a second [disconnect] of
    the same id leaves the state the first one produced, does not throw and
    emits nothing. *)
Theorem disconnect_idempotent s sid :
  let first := on_disconnect s sid in
  let second := on_disconnect (st first) sid in
  st second = st first ∧ threw first = false ∧ threw second = false
  ∧ emitted second = [].
Proof.
  intros first second. subst second.
  rewrite (on_disconnect_absent (st first) sid) by apply on_disconnect_gone.
  split_and!; [| apply on_disconnect_no_throw | done | done].
  simpl. pose proof (on_disconnect_pools s sid) as Hpools. fold first in Hpools.
  destruct (st first) as [m w store]. simpl in Hpools. subst w.
  unfold removeFromWaitingPools, with_waiting. simpl.
  by rewrite !set_delete_idem.
Qed.

(** C8 (preference-update frame).  From any state, [update-preferences]
    emits nothing, does not throw and leaves pools and report store as they
    were.  For a registered id it replaces that user's [preferences] and
    nothing else; no user's [id], [gender] or [currentPeer] changes and no
    user appears or disappears.  For an unregistered id the state is
    unchanged. *)
Theorem update_preferences_frame s sid p :
  let o := on_update_preferences s sid p in
  waitingUsers (st o) = waitingUsers s
  ∧ storage (st o) = storage s
  ∧ emitted o = [] ∧ threw o = false
  ∧ (∀ u, activeUsers s !! sid = Some u →
       activeUsers (st o) !! sid
       = Some (mkUser (id u) (gender u) p (currentPeer u)))
  ∧ (∀ k, k ≠ sid → activeUsers (st o) !! k = activeUsers s !! k)
  ∧ (∀ k, match activeUsers s !! k, activeUsers (st o) !! k with
          | Some u, Some u' =>
              id u' = id u ∧ gender u' = gender u
              ∧ currentPeer u' = currentPeer u
          | None, None => True
          | _, _ => False
          end)
  ∧ (activeUsers s !! sid = None → st o = s).
Proof.
  intros o. subst o. unfold on_update_preferences.
  destruct (activeUsers s !! sid) as [user |] eqn:Hsid; simpl.
  - split_and!; try done.
    + intros u [= <-]. by rewrite lookup_alter_eq, Hsid.
    + intros k Hk. by rewrite lookup_alter_ne.
    + intros k. rewrite lookup_alter. case_decide as Hk.
      * subst k. by rewrite Hsid.
      * by destruct (activeUsers s !! k).
  - split_and!; try done. intros k. by destruct (activeUsers s !! k).
Qed.

(** C9 (inert self-category).  A connection creates its user with [gender]
    "both", and no later event changes any user's [gender].  Hence in every
    reachable state every user's [gender] is "both", the "male" and
    "female" pools are empty, every waiting id is in the "both" pool, and
    [findMatch] returns nothing to a seeker whose desired gender is "male"
    or "female". *)
Theorem inert_self_category s :
  reachable s →
  (∀ sid, activeUsers (st (on_connection s sid)) !! sid
          = Some (mkUser sid "both" (Some (mkPreferences "both" "any")) None))
  ∧ (∀ sid e, e ≠ Connection →
       ∀ k u', activeUsers (st (handle s sid e)) !! k = Some u' →
               ∃ u, activeUsers s !! k = Some u ∧ gender u' = gender u)
  ∧ (∀ k u, activeUsers s !! k = Some u → gender u = "both")
  ∧ male (waitingUsers s) = []
  ∧ female (waitingUsers s) = []
  ∧ (∀ k, queued (waitingUsers s) k → k ∈ both (waitingUsers s))
  ∧ (∀ sid seeker p, activeUsers s !! sid = Some seeker →
       preferences seeker = Some p →
       pref_gender p = "male" ∨ pref_gender p = "female" →
       findMatch s sid = Returned None).
Proof.
  intros [Hg Hm Hf]%reachable_inert. split_and!; try done.
  - intros sid. simpl. apply lookup_insert_eq.
  - intros sid e He. by apply handle_gender.
  - intros k [Hk | [Hk | Hk]]; [| | done].
    + rewrite Hm in Hk. by apply elem_of_nil in Hk.
    + rewrite Hf in Hk. by apply elem_of_nil in Hk.
  - intros sid seeker p Hsid Hp Hpref. unfold findMatch. rewrite Hsid, Hp.
    assert (potentialMatches (waitingUsers s) (pref_gender p) = []) as ->.
    { unfold potentialMatches. destruct Hpref as [-> | ->]; by simpl. }
    by case_decide.
Qed.

Lemma inert_self_category_witness : findMatch b_wants_male "b" = Returned None.
Proof.
  pose proof (inert_self_category b_wants_male b_wants_male_reachable)
    as (_ & _ & _ & _ & _ & _ & H).
  apply (H "b" (mkUser "b" "both" (Some (mkPreferences "male" "any")) None)
           (mkPreferences "male" "any")).
  - vm_compute. reflexivity.
  - reflexivity.
  - left. reflexivity.
Defined.

(** C10 (pool membership implies registration).  In every reachable state
    every id in a waiting pool is a key of [activeUsers]; so the candidate
    that [find-peer] is about to commit to is registered when it is looked
    up, and the assignment of line 148 never meets a missing user: when
    [find-peer] throws, it is [findMatch] that threw. *)
Theorem queued_implies_registered s :
  reachable s →
  (∀ k, queued (waitingUsers s) k → is_Some (activeUsers s !! k))
  ∧ (∀ sid user found matchId,
       activeUsers s !! sid = Some user →
       findMatch (unpair_before_match s sid user).1 sid = Returned found →
       truthy found = Some matchId →
       is_Some (activeUsers (unpair_before_match s sid user).1 !! matchId))
  ∧ (∀ sid, threw (on_find_peer s sid) = true →
       ∃ user, activeUsers s !! sid = Some user
               ∧ findMatch (unpair_before_match s sid user).1 sid = Thrown).
Proof.
  intros Hc%reachable_consistent. split_and!.
  - intros k Hk. destruct (c_queued _ Hc _ Hk) as (u & Hu & _). by exists u.
  - intros sid user found matchId Hsid Hfound [-> _]%truthy_Some.
    apply findMatch_Some in Hfound as [_ Hq].
    pose proof (unpair_before_match_consistent _ _ _ Hc Hsid) as Hc1.
    destruct (c_queued _ Hc1 _ Hq) as (u & Hu & _). by exists u.
  - intros sid. by apply on_find_peer_throws.
Qed.

Lemma queued_implies_registered_witness :
  is_Some (activeUsers one_waiting !! "a")
  ∧ is_Some (activeUsers (unpair_before_match one_waiting "b"
                            (default_user "b" None)).1 !! "a").
Proof.
  pose proof (queued_implies_registered one_waiting one_waiting_reachable)
    as (Hreg & Hlookup & _).
  split.
  - apply Hreg. right. right. vm_compute. apply list_elem_of_here.
  - apply (Hlookup "b" (default_user "b" None) (Some "a") "a");
      by vm_compute.
Defined.

(** * Further properties of the handlers *)

(** ** Matching does not look at [currentPeer] *)

Lemma countryFilter_alter_currentPeer m v k p l :
  countryFilter (alter (set_currentPeer v) k m) p l = countryFilter m p l.
Proof.
  induction l as [| i l IH]; [done |]. cbn [countryFilter].
  rewrite lookup_alter, IH. case_decide as Hk; [| done].
  subst k. by destruct (m !! i).
Qed.

Lemma findMatch_alter_currentPeer m w store v k sid :
  findMatch (mkState (alter (set_currentPeer v) k m) w store) sid
  = findMatch (mkState m w store) sid.
Proof.
  unfold findMatch. simpl. rewrite lookup_alter. case_decide as Hk.
  - subst k. destruct (m !! sid) as [user |] eqn:Hsid; [| done]. simpl.
    destruct (preferences user) as [p |]; [| done].
    by rewrite countryFilter_alter_currentPeer.
  - destruct (m !! sid) as [user |]; [| done].
    destruct (preferences user) as [p |]; [| done].
    by rewrite countryFilter_alter_currentPeer.
Qed.

Lemma findMatch_unpair s sid user :
  findMatch (unpair_before_match s sid user).1 sid = findMatch s sid.
Proof.
  unfold unpair_before_match. destruct s as [m w store].
  destruct (truthy (currentPeer user)) as [p |]; [| done]. simpl.
  destruct (m !! p); unfold with_users; simpl;
    by rewrite !findMatch_alter_currentPeer.
Qed.

(** What [unpair_before_match] does in a consistent state, in one place. *)
Lemma unpair_before_match_paired s sid user p :
  consistent s → activeUsers s !! sid = Some user → currentPeer user = Some p →
  unpair_before_match s sid user
  = (with_users s
       (alter (set_currentPeer None) sid
          (alter (set_currentPeer None) p (activeUsers s))),
     [peer_disconnected p]).
Proof.
  intros Hc Hsid Hp. unfold unpair_before_match.
  rewrite (consistent_truthy _ _ _ Hc Hsid), Hp.
  destruct (c_peers _ Hc _ _ _ Hsid Hp) as (_ & v & Hv & _). by rewrite Hv.
Qed.

Lemma unpair_before_match_idle s sid user :
  consistent s → activeUsers s !! sid = Some user → currentPeer user = None →
  unpair_before_match s sid user = (s, []).
Proof. intros Hc Hsid Hp. unfold unpair_before_match. by rewrite Hp. Qed.

Lemma unpair_before_match_emitted s sid user :
  consistent s → activeUsers s !! sid = Some user →
  (unpair_before_match s sid user).2 = former_peer_notice user.
Proof.
  intros Hc Hsid. unfold former_peer_notice.
  destruct (currentPeer user) as [p |] eqn:Hp.
  - by rewrite (unpair_before_match_paired _ _ _ _ Hc Hsid Hp).
  - by rewrite (unpair_before_match_idle _ _ _ Hc Hsid Hp).
Qed.

Lemma queued_nonempty s k :
  consistent s → queued (waitingUsers s) k → truthy (Some k) = Some k.
Proof.
  intros Hc Hq. destruct (c_queued _ Hc _ Hq) as (u & Hu & _).
  destruct (c_ids _ Hc _ _ Hu) as [_ Hne]. simpl. by case_decide.
Qed.

Lemma set_add_fresh x l : x ∉ l → set_add x l = l ++ [x].
Proof. intros Hx. unfold set_add. by case_decide. Qed.

Lemma set_delete_absent x l : x ∉ l → set_delete x l = l.
Proof.
  unfold set_delete. induction l as [| a l IH]; [done |].
  rewrite not_elem_of_cons. intros [Hne Hl].
  rewrite filter_cons. case_decide; [| congruence]. f_equal. by apply IH.
Qed.

Lemma not_elem_of_set_delete x l : x ∉ set_delete x l.
Proof. rewrite elem_of_set_delete. tauto. Qed.

(** ** What a [find-peer] turn does *)

(** X1.  In a reachable state, when the match engine has a candidate [m]
    for a registered seeker, [find-peer] pairs the two: [m] was waiting and
    is not the seeker, afterwards each is the other's [currentPeer], both
    are out of every pool (the pools lose these two ids and nothing else),
    and the turn emits the notice to the seeker's former peer, if it had
    one, followed by [ready] to the seeker and [ready] to [m]. *)
Theorem find_peer_commit s sid user m :
  reachable s → activeUsers s !! sid = Some user →
  findMatch s sid = Returned (Some m) →
  let o := on_find_peer s sid in
  m ≠ sid ∧ queued (waitingUsers s) m
  ∧ (∃ u', activeUsers (st o) !! sid = Some u' ∧ currentPeer u' = Some m)
  ∧ (∃ v', activeUsers (st o) !! m = Some v' ∧ currentPeer v' = Some sid)
  ∧ waitingUsers (st o)
    = waitingUsers (removeFromWaitingPools (removeFromWaitingPools s sid) m)
  ∧ ¬ queued (waitingUsers (st o)) sid ∧ ¬ queued (waitingUsers (st o)) m
  ∧ emitted o = former_peer_notice user ++ [ready sid; ready m]
  ∧ threw o = false.
Proof.
  intros Hr Hsid Hm o. pose proof (reachable_consistent _ Hr) as Hc.
  destruct (findMatch_Some _ _ _ Hm) as [Hne Hq].
  pose proof (findMatch_unpair s sid user) as Hfm.
  pose proof (unpair_before_match_emitted _ _ _ Hc Hsid) as Hout.
  pose proof (unpair_before_match_frame s sid user) as [Hw _].
  pose proof (unpair_before_match_consistent _ _ _ Hc Hsid) as Hc1.
  destruct (unpair_before_match_unpaired _ _ _ Hc Hsid) as (u1 & Hu1 & _).
  subst o. unfold on_find_peer. rewrite Hsid.
  destruct (unpair_before_match s sid user) as [s1 out]. simpl in *.
  rewrite Hfm, Hm, (queued_nonempty _ _ Hc Hq).
  rewrite <- Hw in Hq. destruct (c_queued _ Hc1 _ Hq) as (v1 & Hv1 & _).
  rewrite Hv1. cbn [st ok emitted threw].
  assert (waitingUsers
            (removeFromWaitingPools
               (removeFromWaitingPools
                  (with_users s1
                     (alter (set_currentPeer (Some sid)) m
                        (alter (set_currentPeer (Some m)) sid (activeUsers s1))))
                  sid) m)
          = waitingUsers (removeFromWaitingPools (removeFromWaitingPools s sid) m))
    as Hpools.
  { unfold removeFromWaitingPools. simpl. by rewrite Hw. }
  split_and!; try done.
  - by rewrite <- Hw.
  - exists (set_currentPeer (Some m) u1). simpl.
    by rewrite lookup_alter_ne, lookup_alter_eq, Hu1.
  - exists (set_currentPeer (Some sid) v1). simpl.
    by rewrite lookup_alter_eq, lookup_alter_ne, Hv1.
  - rewrite Hpools. intros [[_ Hx]%queued_remove _]%queued_remove. done.
  - rewrite Hpools. intros [_ Hx]%queued_remove. done.
  - by rewrite Hout.
Qed.

Lemma find_peer_commit_witness :
  emitted (on_find_peer one_waiting "b") = [ready "b"; ready "a"]
  ∧ waitingUsers (st (on_find_peer one_waiting "b"))
    = waitingUsers
        (removeFromWaitingPools (removeFromWaitingPools one_waiting "b") "a").
Proof.
  pose proof (find_peer_commit one_waiting "b" (default_user "b" None) "a"
                one_waiting_reachable) as H.
  destruct H as (_ & _ & _ & _ & Hpools & _ & _ & Hout & _).
  - vm_compute. reflexivity.
  - vm_compute. reflexivity.
  - split; [exact Hout | exact Hpools].
Defined.

(** X2.  In a reachable state, when the match engine has no candidate for a
    registered seeker, [find-peer] leaves the seeker unpaired and puts it at
    the back of the "both" pool, also when it was waiting there already; the
    other two pools stay empty and nothing but the notice to a former peer
    is emitted. *)
Theorem find_peer_enqueue s sid user :
  reachable s → activeUsers s !! sid = Some user →
  findMatch s sid = Returned None →
  let o := on_find_peer s sid in
  (∃ u', activeUsers (st o) !! sid = Some u' ∧ currentPeer u' = None)
  ∧ both (waitingUsers (st o)) = set_delete sid (both (waitingUsers s)) ++ [sid]
  ∧ male (waitingUsers (st o)) = [] ∧ female (waitingUsers (st o)) = []
  ∧ emitted o = former_peer_notice user
  ∧ threw o = false.
Proof.
  intros Hr Hsid Hm o. pose proof (reachable_consistent _ Hr) as Hc.
  pose proof (reachable_inert _ Hr) as [Hg Hmale Hfemale].
  pose proof (findMatch_unpair s sid user) as Hfm.
  pose proof (unpair_before_match_emitted _ _ _ Hc Hsid) as Hout.
  pose proof (unpair_before_match_frame s sid user) as [Hw _].
  pose proof (unpair_before_match_gender s sid user) as Hg1.
  destruct (unpair_before_match_unpaired _ _ _ Hc Hsid) as (u1 & Hu1 & Hu1c).
  subst o. unfold on_find_peer. rewrite Hsid.
  destruct (unpair_before_match s sid user) as [s1 out]. simpl in *.
  rewrite Hfm, Hm. cbn [truthy st ok emitted threw].
  assert (gender u1 = "both") as Hboth.
  { destruct (Hg1 _ _ Hu1) as (u & Hu & ->). by eapply Hg. }
  rewrite addToWaitingPool_users. unfold addToWaitingPool.
  rewrite Hu1, Hboth. simpl. rewrite Hw, Hmale, Hfemale.
  split_and!; try done.
  - by exists u1.
  - apply set_add_fresh, not_elem_of_set_delete.
Qed.

Lemma find_peer_enqueue_witness :
  both (waitingUsers (st (on_find_peer one_waiting "a"))) = ["a"]
  ∧ both (waitingUsers (st (on_find_peer two_connected "b"))) = ["b"].
Proof.
  split.
  - pose proof (find_peer_enqueue one_waiting "a" (default_user "a" None)
                  one_waiting_reachable) as H.
    destruct H as (_ & Hb & _); [by vm_compute | by vm_compute |].
    rewrite Hb. vm_compute. reflexivity.
  - pose proof (find_peer_enqueue two_connected "b" (default_user "b" None)
                  two_connected_reachable) as H.
    destruct H as (_ & Hb & _); [by vm_compute | by vm_compute |].
    rewrite Hb. vm_compute. reflexivity.
Defined.

(** X3.  In a reachable state, [find-peer] from a socket that is paired
    with [p] ends that pairing first: [p] is told [peer-disconnected]
    before anything else is emitted, ends the turn unpaired and in no pool
    (it has to ask for a new peer itself), and is not the seeker's new
    match. *)
Theorem find_peer_releases_former_peer s sid user p v :
  reachable s →
  activeUsers s !! sid = Some user → currentPeer user = Some p →
  activeUsers s !! p = Some v →
  let o := on_find_peer s sid in
  activeUsers (st o) !! p = Some (set_currentPeer None v)
  ∧ ¬ queued (waitingUsers (st o)) p
  ∧ head (emitted o) = Some (peer_disconnected p)
  ∧ findMatch s sid ≠ Returned (Some p)
  ∧ (∀ u', activeUsers (st o) !! sid = Some u' → currentPeer u' ≠ Some p).
Proof.
  intros Hr Hsid Hp Hv o. pose proof (reachable_consistent _ Hr) as Hc.
  destruct (c_peers _ Hc _ _ _ Hsid Hp) as (Hne & v0 & Hv0 & Hvp).
  assert (v0 = v) as -> by congruence.
  assert (¬ queued (waitingUsers s) p) as Hnq.
  { intros Hq. destruct (c_queued _ Hc _ Hq) as (w & Hw & Hwc). congruence. }
  assert (findMatch s sid ≠ Returned (Some p)) as Hnp.
  { intros [_ Hq]%findMatch_Some. done. }
  pose proof (findMatch_unpair s sid user) as Hfm.
  subst o. unfold on_find_peer. rewrite Hsid.
  rewrite (unpair_before_match_paired _ _ _ _ Hc Hsid Hp) in *. simpl in Hfm.
  rewrite Hfm.
  destruct (findMatch s sid) as [[m |] |] eqn:Hm; [| cbn [truthy] |].
  - destruct (findMatch_Some _ _ _ Hm) as [Hms Hq].
    rewrite (queued_nonempty _ _ Hc Hq).
    assert (m ≠ p) as Hmp by congruence.
    destruct (c_queued _ Hc _ Hq) as (w & Hw & _).
    cbn [activeUsers with_users].
    rewrite (lookup_alter_ne _ _ sid m), (lookup_alter_ne _ _ p m), Hw by done.
    cbn [st ok emitted]. split_and!; try done.
    + simpl. rewrite !lookup_alter_ne by done.
      by rewrite lookup_alter_eq, Hv.
    + intros [[Hq' _]%queued_remove _]%queued_remove. done.
    + intros u'. simpl.
      rewrite lookup_alter_ne, lookup_alter_eq by done.
      destruct (alter _ sid _ !! sid); [| done]. intros [= <-]. simpl. congruence.
  - cbn [st ok emitted]. split_and!; try done.
    + rewrite addToWaitingPool_users. simpl.
      by rewrite lookup_alter_ne, lookup_alter_eq, Hv.
    + assert (activeUsers
                (with_users s
                   (alter (set_currentPeer None) sid
                      (alter (set_currentPeer None) p (activeUsers s)))) !! sid
              = Some (set_currentPeer None user)) as Hsid1.
      { simpl. by rewrite lookup_alter_eq, lookup_alter_ne, Hsid. }
      intros [[Hq' _] | ->]%(queued_add _ _ _ _ Hsid1); done.
    + intros u'. rewrite addToWaitingPool_users. simpl.
      rewrite lookup_alter_eq, lookup_alter_ne, Hsid by done.
      intros [= <-]. done.
  - cbn [st emitted]. split_and!; try done.
    + simpl. by rewrite lookup_alter_ne, lookup_alter_eq, Hv.
    + intros u'. simpl.
      rewrite lookup_alter_eq, lookup_alter_ne, Hsid by done.
      intros [= <-]. done.
Qed.

Lemma find_peer_releases_former_peer_witness :
  activeUsers (st (on_find_peer paired "a")) !! "b"
  = Some (default_user "b" None)
  ∧ head (emitted (on_find_peer paired "a")) = Some (peer_disconnected "b").
Proof.
  pose proof (find_peer_releases_former_peer paired "a"
                (default_user "a" (Some "b")) "b" (default_user "b" (Some "a"))
                paired_reachable) as H.
  destruct H as (Hb & _ & Hout & _).
  - vm_compute. reflexivity.
  - reflexivity.
  - vm_compute. reflexivity.
  - split; [exact Hb | exact Hout].
Defined.

(** ** What a [disconnect] turn does *)

(** X4.  In a reachable state a [disconnect] leaves no trace of the id: it
    is no key of the registry, it is in no pool, and no remaining user has
    it as [currentPeer].  The pools lose this id and nothing else and the
    report store is untouched.  A peer [p], if there was one, ends unpaired
    and is the only socket told [peer-disconnected]; without a peer nothing
    is emitted.  Every user other than the id and its peer is unchanged. *)
Theorem disconnect_outcome s sid :
  reachable s →
  let o := on_disconnect s sid in
  activeUsers (st o) !! sid = None
  ∧ ¬ queued (waitingUsers (st o)) sid
  ∧ (∀ k u, activeUsers (st o) !! k = Some u → currentPeer u ≠ Some sid)
  ∧ waitingUsers (st o) = waitingUsers (removeFromWaitingPools s sid)
  ∧ storage (st o) = storage s
  ∧ (∀ user p, activeUsers s !! sid = Some user → currentPeer user = Some p →
       emitted o = [peer_disconnected p]
       ∧ ∃ v, activeUsers s !! p = Some v
              ∧ activeUsers (st o) !! p = Some (set_currentPeer None v))
  ∧ (activeUsers s !! sid = None
     ∨ (∃ user, activeUsers s !! sid = Some user ∧ currentPeer user = None) →
     emitted o = [] ∧ activeUsers (st o) = delete sid (activeUsers s))
  ∧ (∀ k u, k ≠ sid → activeUsers s !! k = Some u → currentPeer u ≠ Some sid →
       activeUsers (st o) !! k = Some u).
Proof.
  intros Hr o. pose proof (reachable_consistent _ Hr) as Hc.
  pose proof (on_disconnect_consistent s sid Hc) as Hc'.
  pose proof (on_disconnect_gone s sid) as Hgone.
  pose proof (on_disconnect_pools s sid) as Hpools.
  subst o. split_and!; try done.
  - rewrite Hpools. intros [_ Hx]%queued_remove. done.
  - intros k u Hk Hp. destruct (c_peers _ Hc' _ _ _ Hk Hp) as (_ & w & Hw & _).
    congruence.
  - unfold on_disconnect. destruct (activeUsers s !! sid) as [user |]; [| done].
    by destruct (truthy (currentPeer user)).
  - intros user p Hsid Hp.
    destruct (c_peers _ Hc _ _ _ Hsid Hp) as (Hne & v & Hv & _).
    unfold on_disconnect.
    rewrite Hsid, (consistent_truthy _ _ _ Hc Hsid), Hp, Hv. simpl.
    split; [done |]. exists v. split; [done |].
    by rewrite lookup_delete_ne, lookup_alter_eq, Hv.
  - unfold on_disconnect. intros [Hsid | (user & Hsid & Hp)]; rewrite Hsid; [done |].
    by rewrite Hp.
  - intros k u Hk Hu Hnp. unfold on_disconnect.
    destruct (activeUsers s !! sid) as [user |] eqn:Hsid; simpl;
      [| by rewrite lookup_delete_ne].
    rewrite (consistent_truthy _ _ _ Hc Hsid).
    destruct (currentPeer user) as [p |] eqn:Hp; simpl;
      [| by rewrite lookup_delete_ne].
    destruct (c_peers _ Hc _ _ _ Hsid Hp) as (Hne & v & Hv & Hvp).
    rewrite Hv, lookup_delete_ne, lookup_alter_ne; [done | | done].
    intros ->. congruence.
Qed.

Lemma disconnect_outcome_witness :
  activeUsers (st (on_disconnect paired "a")) !! "a" = None
  ∧ emitted (on_disconnect paired "a") = [peer_disconnected "b"].
Proof.
  pose proof (disconnect_outcome paired "a" paired_reachable)
    as (Hgone & _ & _ & _ & _ & Hpeer & _).
  split; [exact Hgone |].
  apply (Hpeer (default_user "a" (Some "b")) "b"); [by vm_compute | done].
Defined.

(** X5.  A socket that connects and disconnects without doing anything in
    between leaves the reachable state it found exactly as it was, and
    nothing is emitted on the way. *)
Theorem connect_then_disconnect s sid :
  reachable s → sid ≠ EmptyString → activeUsers s !! sid = None →
  st (on_disconnect (st (on_connection s sid)) sid) = s
  ∧ emitted (on_connection s sid) = []
  ∧ emitted (on_disconnect (st (on_connection s sid)) sid) = [].
Proof.
  intros Hr Hne Hfresh. pose proof (reachable_consistent _ Hr) as Hc.
  assert (¬ queued (waitingUsers s) sid) as Hnq.
  { intros Hq. destruct (c_queued _ Hc _ Hq) as (u & Hu & _). congruence. }
  unfold on_disconnect, on_connection. cbn [st ok activeUsers with_users].
  rewrite lookup_insert_eq. cbn [currentPeer truthy emitted ok].
  split_and!; [| done | done].
  destruct s as [m w store]. destruct w as [wm wf wb].
  unfold removeFromWaitingPools, with_users, with_waiting, queued in *.
  simpl in *. rewrite (delete_insert_id _ _ _ Hfresh).
  rewrite !set_delete_absent; [done | tauto ..].
Qed.

Lemma connect_then_disconnect_witness :
  st (on_disconnect (st (on_connection paired "c")) "c") = paired.
Proof.
  apply (connect_then_disconnect paired "c" paired_reachable).
  - discriminate.
  - vm_compute. reflexivity.
Defined.

Lemma set_delete_add x l : set_delete x (set_add x l) = set_delete x l.
Proof.
  unfold set_add. case_decide; [done |]. unfold set_delete.
  rewrite filter_app, filter_cons. rewrite decide_False by (intros Hx; by apply Hx).
  by rewrite filter_nil, app_nil_r.
Qed.

Lemma removeFromWaitingPools_add s x :
  waitingUsers (removeFromWaitingPools (addToWaitingPool s x) x)
  = waitingUsers (removeFromWaitingPools s x).
Proof.
  unfold addToWaitingPool. destruct (activeUsers s !! x) as [u |]; [| done].
  unfold removeFromWaitingPools.
  repeat case_decide; simpl; by rewrite ?set_delete_add, ?set_delete_idem.
Qed.

Lemma on_disconnect_unpaired s sid :
  (∀ user, activeUsers s !! sid = Some user → currentPeer user = None) →
  on_disconnect s sid
  = ok (mkState (delete sid (activeUsers s))
          (waitingUsers (removeFromWaitingPools s sid)) (storage s)) [].
Proof.
  intros Hidle. unfold on_disconnect.
  destruct (activeUsers s !! sid) as [user |]; [| done].
  by rewrite (Hidle user eq_refl).
Qed.

(** X6.  In a reachable state, when the match engine has no candidate for
    [sid], a [find-peer] followed by a [disconnect] of [sid] ends in the
    state that the [disconnect] alone produces, and the two turns together
    emit what the [disconnect] alone emits: waiting for a peer and leaving
    costs nobody anything. *)
Theorem failed_find_then_disconnect s sid :
  reachable s → findMatch s sid = Returned None →
  st (on_disconnect (st (on_find_peer s sid)) sid) = st (on_disconnect s sid)
  ∧ emitted (on_find_peer s sid)
    ++ emitted (on_disconnect (st (on_find_peer s sid)) sid)
    = emitted (on_disconnect s sid).
Proof.
  intros Hr Hm. pose proof (reachable_consistent _ Hr) as Hc.
  destruct (activeUsers s !! sid) as [user |] eqn:Hsid.
  - pose proof (findMatch_unpair s sid user) as Hfm.
    pose proof (unpair_before_match_frame s sid user) as [Hw Hstore].
    destruct (unpair_before_match_unpaired _ _ _ Hc Hsid) as (u1 & Hu1 & Hu1c).
    assert (on_find_peer s sid
            = ok (addToWaitingPool (unpair_before_match s sid user).1 sid)
                (unpair_before_match s sid user).2) as Hfind.
    { unfold on_find_peer. rewrite Hsid.
      destruct (unpair_before_match s sid user) as [s1 out]. simpl in *.
      by rewrite Hfm, Hm. }
    rewrite Hfind. cbn [st ok emitted].
    rewrite on_disconnect_unpaired.
    2:{ rewrite addToWaitingPool_users, Hu1. by intros ? [= <-]. }
    rewrite removeFromWaitingPools_add, addToWaitingPool_users,
      addToWaitingPool_storage, Hstore. cbn [st ok emitted].
    rewrite app_nil_r.
    destruct (currentPeer user) as [p |] eqn:Hp.
    + destruct (c_peers _ Hc _ _ _ Hsid Hp) as (Hne & v & Hv & _).
      rewrite (unpair_before_match_paired _ _ _ _ Hc Hsid Hp).
      unfold on_disconnect.
      rewrite Hsid, (consistent_truthy _ _ _ Hc Hsid), Hp, Hv. simpl.
      by rewrite delete_alter_eq.
    + rewrite (unpair_before_match_idle _ _ _ Hc Hsid Hp).
      rewrite on_disconnect_unpaired; [done |]. intros ?. rewrite Hsid. congruence.
  - unfold on_find_peer. by rewrite Hsid.
Qed.

Lemma failed_find_then_disconnect_witness :
  st (on_disconnect (st (on_find_peer paired "a")) "a")
  = st (on_disconnect paired "a").
Proof.
  apply (failed_find_then_disconnect paired "a" paired_reachable).
  vm_compute. reflexivity.
Defined.

(** ** Who is told what *)

(** X7.  In a reachable state every message a handler emits is addressed
    to a socket that is registered when the turn starts; the only message
    a socket ever brings upon itself is [ready]. *)
Theorem emits_to_registered s sid e msg :
  reachable s → msg ∈ emitted (handle s sid e) →
  is_Some (activeUsers s !! target msg)
  ∧ (target msg = sid → event msg = "ready").
Proof.
  intros Hr. pose proof (reachable_consistent _ Hr) as Hc.
  assert (∀ user p, activeUsers s !! sid = Some user →
                    currentPeer user = Some p →
                    is_Some (activeUsers s !! p) ∧ p ≠ sid) as Hpeer.
  { intros user p Hsid Hp.
    destruct (c_peers _ Hc _ _ _ Hsid Hp) as (Hne & v & Hv & _). eauto. }
  assert (∀ kind x, msg ∈ emitted (relay kind s sid x) →
            is_Some (activeUsers s !! target msg)
            ∧ (target msg = sid → event msg = "ready")) as Hrelay.
  { intros kind x. unfold relay.
    destruct (activeUsers s !! sid) as [user |] eqn:Hsid;
      [| by intros ?%elem_of_nil].
    rewrite (consistent_truthy _ _ _ Hc Hsid).
    destruct (currentPeer user) as [p |] eqn:Hp; [| by intros ?%elem_of_nil].
    intros ->%list_elem_of_singleton. simpl.
    destruct (Hpeer _ _ eq_refl Hp). done. }
  destruct e as [| q | | x | x | x | x | payload now |]; simpl.
  - by intros ?%elem_of_nil.
  - unfold on_update_preferences.
    destruct (activeUsers s !! sid); by intros ?%elem_of_nil.
  - destruct (activeUsers s !! sid) as [user |] eqn:Hsid.
    2:{ unfold on_find_peer. rewrite Hsid. by intros ?%elem_of_nil. }
    pose proof (unpair_before_match_emitted _ _ _ Hc Hsid) as Hout.
    pose proof (findMatch_unpair s sid user) as Hfm.
    assert (msg ∈ former_peer_notice user →
            is_Some (activeUsers s !! target msg)
            ∧ (target msg = sid → event msg = "ready")) as Hnotice.
    { unfold former_peer_notice.
      destruct (currentPeer user) as [p |] eqn:Hp; [| by intros ?%elem_of_nil].
      intros ->%list_elem_of_singleton. simpl.
      destruct (Hpeer _ _ eq_refl Hp). done. }
    unfold on_find_peer. rewrite Hsid.
    destruct (unpair_before_match s sid user) as [s1 out]. simpl in *.
    rewrite Hfm, Hout.
    destruct (findMatch s sid) as [[m |] |] eqn:Hm; [| done | done].
    destruct (findMatch_Some _ _ _ Hm) as [Hms Hq].
    destruct (c_queued _ Hc _ Hq) as (w & Hw & _).
    rewrite (queued_nonempty _ _ Hc Hq).
    destruct (activeUsers s1 !! m); cbn [emitted ok]; [| done].
    intros [Hin | Hin]%elem_of_app; [by apply Hnotice |].
    apply elem_of_cons in Hin as [-> | Hin]; [simpl; by rewrite Hsid |].
    apply list_elem_of_singleton in Hin as ->. simpl. by rewrite Hw.
  - apply Hrelay.
  - apply Hrelay.
  - apply Hrelay.
  - apply Hrelay.
  - unfold on_report_user.
    destruct payload as [[reason details] |]; [| by intros ?%elem_of_nil].
    destruct (activeUsers s !! sid) as [user |] eqn:Hsid;
      [| by intros ?%elem_of_nil].
    rewrite (consistent_truthy _ _ _ Hc Hsid).
    destruct (currentPeer user) as [p |] eqn:Hp; [| by intros ?%elem_of_nil].
    destruct (Hpeer _ _ eq_refl Hp) as [[v Hv] Hne]. rewrite Hv. simpl.
    intros ->%list_elem_of_singleton. simpl. by rewrite Hv.
  - unfold on_disconnect.
    destruct (activeUsers s !! sid) as [user |] eqn:Hsid;
      [| by intros ?%elem_of_nil].
    rewrite (consistent_truthy _ _ _ Hc Hsid).
    destruct (currentPeer user) as [p |] eqn:Hp; [| by intros ?%elem_of_nil].
    destruct (Hpeer _ _ eq_refl Hp) as [HpS Hne]. simpl.
    intros ->%list_elem_of_singleton. done.
Qed.

Lemma emits_to_registered_witness :
  is_Some (activeUsers one_waiting !! "a")
  ∧ ("a" = "b" → "ready" = "ready").
Proof.
  apply (emits_to_registered one_waiting "b" FindPeer (ready "a")
           one_waiting_reachable).
  vm_compute. apply list_elem_of_further, list_elem_of_here.
Defined.

(** X8.  In a reachable state a conversation is two-way and private: when
    a relayed message of [a] is delivered to [c], the relayed messages of
    [c] are delivered to [a], and no relayed message of any other socket is
    delivered to [c]. *)
Theorem relay_is_private s a c kind x :
  reachable s → emitted (relay kind s a x) = [mkEmit c kind [x]] →
  (∀ kind' y, emitted (relay kind' s c y) = [mkEmit a kind' [y]])
  ∧ (∀ b kind' y msg,
       msg ∈ emitted (relay kind' s b y) → target msg = c → b = a).
Proof.
  intros Hr Hout. pose proof (reachable_consistent _ Hr) as Hc.
  assert (∃ A, activeUsers s !! a = Some A ∧ currentPeer A = Some c)
    as (A & Ha & Hac).
  { revert Hout. unfold relay.
    destruct (activeUsers s !! a) as [A |] eqn:Ha; [| done].
    rewrite (consistent_truthy _ _ _ Hc Ha).
    destruct (currentPeer A) as [p |] eqn:Hp; [| done].
    intros [= ->]. by exists A. }
  destruct (c_peers _ Hc _ _ _ Ha Hac) as (Hne & C & HC & Hca).
  split.
  - intros kind' y. unfold relay.
    by rewrite HC, (consistent_truthy _ _ _ Hc HC), Hca.
  - intros b kind' y msg. unfold relay.
    destruct (activeUsers s !! b) as [B |] eqn:Hb; [| by intros ?%elem_of_nil].
    rewrite (consistent_truthy _ _ _ Hc Hb).
    destruct (currentPeer B) as [p |] eqn:Hbp; [| by intros ?%elem_of_nil].
    intros ->%list_elem_of_singleton. simpl. intros ->.
    destruct (c_peers _ Hc _ _ _ Hb Hbp) as (_ & C' & HC' & Hcb). congruence.
Qed.

Lemma relay_is_private_witness :
  emitted (relay "answer" paired "b" "sdp-answer")
  = [mkEmit "a" "answer" ["sdp-answer"]].
Proof.
  apply (relay_is_private paired "a" "b" "offer" "sdp-offer" paired_reachable).
  vm_compute. reflexivity.
Defined.

(** ** The reports the handlers file *)

(** X9.  Every report in the store of a reachable state was filed by one
    socket against another: reporter and reported are different, neither
    is the empty id, and the report carries the key it is stored under,
    which lies between 1 and the counter. *)
Theorem reports_are_between_peers s k r :
  reachable s → reports (storage s) !! k = Some r →
  reporterId (report_fields r) ≠ reportedId (report_fields r)
  ∧ reporterId (report_fields r) ≠ EmptyString
  ∧ reportedId (report_fields r) ≠ EmptyString
  ∧ report_id r = k
  ∧ (1 ≤ k ≤ reportIdCounter (storage s))%Z.
Proof.
  intros Hr. revert k r.
  induction Hr as [| s sid e Hr IH Ha]; intros k r.
  { simpl. by rewrite lookup_empty. }
  pose proof (reachable_consistent _ Hr) as Hc.
  pose proof (reachable_store_ok _ Hr) as [Hrange Hkeys].
  destruct e as [| q | | x | x | x | x | payload now |];
    try (rewrite handle_storage by done; apply IH).
  simpl. unfold on_report_user.
  destruct payload as [[reason details] |]; [| apply IH].
  destruct (activeUsers s !! sid) as [user |] eqn:Hsid; [| apply IH].
  rewrite (consistent_truthy _ _ _ Hc Hsid).
  destruct (currentPeer user) as [p |] eqn:Hp; [| apply IH].
  destruct (c_peers _ Hc _ _ _ Hsid Hp) as (Hne & v & Hv & _).
  destruct (c_ids _ Hc _ _ Hsid) as [_ Hsne].
  destruct (c_ids _ Hc _ _ Hv) as [_ Hpne].
  rewrite Hv. simpl.
  pose proof (js_incr_spec (reportIdCounter (storage s))) as [Hlt Hge].
  intros [[<- <-] | [Hk Hold]]%lookup_insert_Some; simpl.
  - do 4 (split; [done |]).
    destruct (decide (reportIdCounter (storage s) < MAX_SAFE)%Z);
      [rewrite Hlt | rewrite Hge]; lia.
  - destruct (IH _ _ Hold) as (? & ? & ? & ? & ?).
    do 4 (split; [done |]).
    destruct (decide (reportIdCounter (storage s) < MAX_SAFE)%Z);
      [rewrite Hlt | rewrite Hge]; lia.
Qed.

Lemma reports_are_between_peers_witness :
  "a" ≠ "b" ∧ "a" ≠ EmptyString ∧ "b" ≠ EmptyString ∧ 1%Z = 1%Z
  ∧ (1 ≤ 1 ≤ reportIdCounter (storage reported))%Z.
Proof.
  apply (reports_are_between_peers reported 1
           (mkReport (mkInsertReport "a" "b" "X" "rude" 1700000000000) 1)).
  - apply run_reachable; [apply paired_reachable | by vm_compute].
  - vm_compute. reflexivity.
Defined.

(** X10.  While the counter of the store is below 2^53, no handler turn in
    a reachable state changes or removes a stored report, and the counter
    never goes down: the store only grows. *)
Theorem reports_are_kept s sid e k r :
  reachable s → (reportIdCounter (storage s) < MAX_SAFE)%Z →
  reports (storage s) !! k = Some r →
  reports (storage (st (handle s sid e))) !! k = Some r
  ∧ (reportIdCounter (storage s)
     ≤ reportIdCounter (storage (st (handle s sid e))))%Z.
Proof.
  intros Hr Hlt Hk.
  pose proof (createReport_fresh _ (reachable_store_ok _ Hr) Hlt) as Hfresh.
  destruct e as [| q | | x | x | x | x | payload now |];
    try (rewrite handle_storage by done; split; [done | lia]).
  simpl. unfold on_report_user.
  destruct payload as [[reason details] |]; [| split; [done | simpl; lia]].
  destruct (activeUsers s !! sid) as [user |]; [| split; [done | simpl; lia]].
  destruct (truthy (currentPeer user)) as [p |]; [| split; [done | simpl; lia]].
  destruct (activeUsers s !! p); simpl.
  - rewrite lookup_insert_ne by congruence.
    split; [done |]. rewrite (proj1 (js_incr_spec _) Hlt). lia.
  - rewrite lookup_insert_ne by congruence.
    split; [done |]. rewrite (proj1 (js_incr_spec _) Hlt). lia.
Qed.

Lemma reports_are_kept_witness :
  reports (storage (st (handle reported "b" (ReportUser (Some ("Y", "again")) 5)))) !! 1%Z
  = Some (mkReport (mkInsertReport "a" "b" "X" "rude" 1700000000000) 1)
  ∧ (reportIdCounter (storage reported)
     ≤ reportIdCounter
         (storage (st (handle reported "b" (ReportUser (Some ("Y", "again")) 5)))))%Z.
Proof.
  apply (reports_are_kept reported "b" (ReportUser (Some ("Y", "again")) 5) 1).
  - apply run_reachable; [apply paired_reachable | by vm_compute].
  - vm_compute. reflexivity.
  - vm_compute. reflexivity.
Defined.

(** * [storage.ts]: accounts and reports filed one after the other *)

(** ** A JS [Map] as the list of its entries *)

Lemma map_get_set_eq {V} k (v : V) l : map_get k (map_set k v l) = Some v.
Proof.
  induction l as [| [k' v'] l IH]; simpl.
  - by rewrite decide_True.
  - case_decide as Hk; simpl; [by rewrite decide_True |].
    by rewrite decide_False.
Qed.

Lemma map_get_set_ne {V} k k' (v : V) l :
  k' ≠ k → map_get k' (map_set k v l) = map_get k' l.
Proof.
  intros Hne. induction l as [| [k0 v0] l IH]; simpl.
  - by rewrite decide_False.
  - case_decide as Hk; simpl.
    + subst k0. by rewrite !decide_False.
    + case_decide; [done | apply IH].
Qed.

Lemma map_set_fresh {V} k (v : V) l : k ∉ l.*1 → map_set k v l = l ++ [(k, v)].
Proof.
  induction l as [| [k' v'] l IH]; simpl; [done |].
  rewrite not_elem_of_cons. intros [Hne Hl].
  rewrite decide_False by done. f_equal. by apply IH.
Qed.

Lemma map_get_None {V} k (l : list (Z * V)) : map_get k l = None ↔ k ∉ l.*1.
Proof.
  induction l as [| [k' v'] l IH]; simpl.
  - split; [intros _ ?%elem_of_nil; done | done].
  - rewrite not_elem_of_cons. case_decide as Hk.
    + split; [done | intros [Hne _]; congruence].
    + rewrite IH. split; [intros ?; split; [congruence | done] | tauto].
Qed.

Lemma map_get_app {V} k (l1 l2 : list (Z * V)) :
  map_get k (l1 ++ l2)
  = match map_get k l1 with Some v => Some v | None => map_get k l2 end.
Proof.
  induction l1 as [| [k' v'] l1 IH]; simpl; [done |]. by case_decide.
Qed.

Lemma nth_account_fresh {I} (l : list I) :
  (Z.of_nat (length l) + 1)%Z ∉ (imap nth_account l).*1.
Proof.
  intros ([k a] & Hk & Hin)%list_elem_of_fmap.
  apply elem_of_lookup_imap in Hin as (i & z & Heq & Hi).
  apply lookup_lt_Some in Hi. unfold nth_account in Heq.
  simplify_eq/=. lia.
Qed.

Lemma map_get_imap {I} (l : list I) n x :
  l !! n = Some x →
  map_get (Z.of_nat n + 1)%Z (imap nth_account l)
  = Some (mkAccount x (Z.of_nat n + 1)).
Proof.
  revert n. induction l as [| y l IH] using rev_ind; intros n; [done |].
  rewrite imap_app, map_get_app. simpl.
  intros [[_ Hn] | [-> [= ->]]]%lookup_snoc_Some.
  - by rewrite (IH _ Hn).
  - rewrite (proj2 (map_get_None _ _) (nth_account_fresh l)).
    rewrite Nat.add_0_r. unfold nth_account. simpl. by rewrite decide_True.
Qed.

(** ** Accounts *)

Lemma createUsers_snoc {I} (l : list I) x t :
  createUsers (l ++ [x]) t = (createUser (createUsers l t) x).1.
Proof. unfold createUsers. by rewrite foldl_snoc. Qed.

Lemma createUsers_new {I} (l : list I) :
  (Z.of_nat (length l) < MAX_SAFE)%Z →
  users (createUsers l newAccounts) = imap nth_account l
  ∧ userIdCounter (createUsers l newAccounts) = (Z.of_nat (length l) + 1)%Z.
Proof.
  induction l as [| x l IH] using rev_ind; [done |].
  rewrite length_app. simpl. intros Hlen.
  destruct IH as [Husers Hcount]; [lia |].
  rewrite createUsers_snoc. unfold createUser. simpl.
  rewrite Husers, Hcount. split.
  - rewrite imap_app. simpl. rewrite Nat.add_0_r.
    apply map_set_fresh, nth_account_fresh.
  - rewrite (proj1 (js_incr_spec _)) by lia. lia.
Qed.

(** X11.  On a new store, accounts created one after the other get the ids
    1, 2, 3, ... in the order of creation (for fewer than 2^53 of them):
    [getUser] of the [n]-th id returns the [n]-th submitted fields with
    that id, [getUser] of any other number returns nothing, and the counter
    stands one above the number of accounts.  Nothing is checked on the
    way: equal usernames are all stored. *)
Theorem accounts_are_numbered {I} (l : list I) :
  (Z.of_nat (length l) < MAX_SAFE)%Z →
  let t := createUsers l newAccounts in
  userIdCounter t = (Z.of_nat (length l) + 1)%Z
  ∧ length (users t) = length l
  ∧ (∀ n x, l !! n = Some x →
       getUser t (Z.of_nat n + 1) = Some (mkAccount x (Z.of_nat n + 1)))
  ∧ (∀ i, (i < 1 ∨ Z.of_nat (length l) < i)%Z → getUser t i = None).
Proof.
  intros Hlen t. destruct (createUsers_new l Hlen) as [Husers Hcount].
  subst t. unfold getUser. rewrite Husers. split_and!.
  - done.
  - apply length_imap.
  - intros n x Hn. by apply map_get_imap.
  - intros i Hi. apply map_get_None.
    intros ([k a] & Hk & Hin)%list_elem_of_fmap.
    apply elem_of_lookup_imap in Hin as (n & z & Heq & Hn).
    apply lookup_lt_Some in Hn. unfold nth_account in Heq.
    simplify_eq/=. lia.
Qed.

Lemma accounts_are_numbered_witness :
  getUser (createUsers [("ann", "pw1"); ("bob", "pw2"); ("ann", "pw3")]
             newAccounts) 3
  = Some (mkAccount ("ann", "pw3") 3)
  ∧ getUser (createUsers [("ann", "pw1"); ("bob", "pw2"); ("ann", "pw3")]
               newAccounts) 4 = None.
Proof.
  pose proof (accounts_are_numbered
                [("ann", "pw1"); ("bob", "pw2"); ("ann", "pw3")])
    as (_ & _ & Hget & Hnone); [by vm_compute |].
  split.
  - apply (Hget 2 ("ann", "pw3")). reflexivity.
  - apply Hnone. right. by vm_compute.
Defined.

Lemma find_imap_account {I} (username : I → string) (name : string)
    (l : list I) (off : nat) :
  List.find (λ user, bool_decide (username (account_fields user) = name))
    (imap (λ n x, mkAccount x (Z.of_nat (off + n) + 1)) l)
  = (λ nx, mkAccount nx.2 (Z.of_nat (off + nx.1) + 1))
    <$> list_find (λ x, username x = name) l.
Proof.
  revert off. induction l as [| x l IH]; intros off; [done |].
  rewrite imap_cons. simpl. case_decide as Hx.
  - by rewrite bool_decide_eq_true_2.
  - rewrite bool_decide_eq_false_2 by done.
    rewrite (imap_ext _ (λ n y, mkAccount y (Z.of_nat (S off + n) + 1))).
    2:{ intros n y _. simpl. do 2 f_equal. lia. }
    rewrite IH.
    destruct (list_find (λ x, username x = name) l) as [[n y] |]; simpl;
      [| done].
    do 3 f_equal. lia.
Qed.

(** X12.  [getUserByUsername] on such a store returns the account that was
    created first among those with the given username, under the id of its
    position, and nothing when no account has the name; an account created
    later under a name already in use is stored but cannot be found by
    name. *)
Theorem getUserByUsername_first {I} (username : I → string) (l : list I)
    (name : string) :
  (Z.of_nat (length l) < MAX_SAFE)%Z →
  getUserByUsername username (createUsers l newAccounts) name
  = (λ nx, mkAccount nx.2 (Z.of_nat nx.1 + 1))
    <$> list_find (λ x, username x = name) l.
Proof.
  intros Hlen. destruct (createUsers_new l Hlen) as [Husers _].
  unfold getUserByUsername. rewrite Husers, fmap_imap.
  rewrite (imap_ext _ (λ n x, mkAccount x (Z.of_nat (0 + n) + 1))) by done.
  apply (find_imap_account username name l 0).
Qed.

Lemma getUserByUsername_first_witness :
  getUserByUsername fst
    (createUsers [("ann", "pw1"); ("bob", "pw2"); ("ann", "pw3")] newAccounts)
    "ann"
  = Some (mkAccount ("ann", "pw1") 1).
Proof.
  rewrite (getUserByUsername_first fst
             [("ann", "pw1"); ("bob", "pw2"); ("ann", "pw3")] "ann");
    by vm_compute.
Defined.

(** ** Reports *)

Lemma createReports_snoc l r m :
  createReports (l ++ [r]) m = (createReport (createReports l m) r).1.
Proof. unfold createReports. by rewrite foldl_snoc. Qed.

Lemma createReports_new l :
  (Z.of_nat (length l) < MAX_SAFE)%Z →
  map_to_list (reports (createReports l newMemStorage))
  ≡ₚ imap (λ n x, ((Z.of_nat n + 1)%Z, mkReport x (Z.of_nat n + 1))) l
  ∧ reportIdCounter (createReports l newMemStorage)
    = (Z.of_nat (length l) + 1)%Z.
Proof.
  induction l as [| r l IH] using rev_ind.
  - intros _. simpl. by rewrite map_to_list_empty.
  - rewrite length_app. simpl. intros Hlen.
    destruct IH as [Hperm Hcount]; [lia |].
    rewrite createReports_snoc. unfold createReport. simpl.
    rewrite Hcount. split.
    + rewrite map_to_list_insert.
      * rewrite imap_app. simpl. rewrite Nat.add_0_r, Hperm.
        by rewrite (comm (++)).
      * destruct (reports (createReports l newMemStorage)
                    !! (Z.of_nat (length l) + 1)%Z) as [r' |] eqn:Hr'; [| done].
        apply elem_of_map_to_list in Hr'. rewrite Hperm in Hr'.
        apply elem_of_lookup_imap in Hr' as (n & x & Heq & Hn).
        apply lookup_lt_Some in Hn. simplify_eq/=. lia.
    + rewrite (proj1 (js_incr_spec _)) by lia. lia.
Qed.

(** X13.  On a new store, reports filed one after the other get the ids
    1, 2, 3, ... in the order of filing (for fewer than 2^53 of them): the
    [n]-th one is stored under the [n]-th id with the fields as submitted,
    no other key is in use, and the counter stands one above their
    number. *)
Theorem reports_are_numbered (l : list InsertReport) :
  (Z.of_nat (length l) < MAX_SAFE)%Z →
  let m := createReports l newMemStorage in
  reportIdCounter m = (Z.of_nat (length l) + 1)%Z
  ∧ size (reports m) = length l
  ∧ (∀ n x, l !! n = Some x →
       reports m !! (Z.of_nat n + 1)%Z = Some (mkReport x (Z.of_nat n + 1)))
  ∧ (∀ k, (k < 1 ∨ Z.of_nat (length l) < k)%Z → reports m !! k = None).
Proof.
  intros Hlen m. destruct (createReports_new l Hlen) as [Hperm Hcount].
  subst m. split_and!.
  - done.
  - rewrite <- length_map_to_list, Hperm. apply length_imap.
  - intros n x Hn. apply elem_of_map_to_list. rewrite Hperm.
    apply (elem_of_lookup_imap_2
             (λ n x, ((Z.of_nat n + 1)%Z, mkReport x (Z.of_nat n + 1)))).
    done.
  - intros k Hk.
    destruct (reports (createReports l newMemStorage) !! k) as [r |] eqn:Hr;
      [| done].
    apply elem_of_map_to_list in Hr. rewrite Hperm in Hr.
    apply elem_of_lookup_imap in Hr as (n & x & Heq & Hn).
    apply lookup_lt_Some in Hn. simplify_eq/=. lia.
Qed.

Lemma reports_are_numbered_witness :
  reports (createReports [mkInsertReport "a" "b" "X" "rude" 1;
                          mkInsertReport "b" "c" "Y" "spam" 2] newMemStorage)
    !! 2%Z
  = Some (mkReport (mkInsertReport "b" "c" "Y" "spam" 2) 2).
Proof.
  pose proof (reports_are_numbered [mkInsertReport "a" "b" "X" "rude" 1;
                                    mkInsertReport "b" "c" "Y" "spam" 2])
    as (_ & _ & Hget & _); [by vm_compute |].
  apply (Hget 1). reflexivity.
Defined.

(** X14.  On such a store [getReports] returns the reports that were filed,
    each once and each with its id and its fields as submitted (the list is
    compared up to its order). *)
Theorem getReports_returns_all (l : list InsertReport) :
  (Z.of_nat (length l) < MAX_SAFE)%Z →
  getReports (createReports l newMemStorage)
  ≡ₚ imap (λ n x, mkReport x (Z.of_nat n + 1)) l.
Proof.
  intros Hlen. destruct (createReports_new l Hlen) as [Hperm _].
  unfold getReports. rewrite Hperm, fmap_imap. done.
Qed.

Lemma getReports_returns_all_witness :
  getReports (createReports [mkInsertReport "a" "b" "X" "rude" 1;
                             mkInsertReport "b" "c" "Y" "spam" 2] newMemStorage)
  ≡ₚ [mkReport (mkInsertReport "a" "b" "X" "rude" 1) 1;
      mkReport (mkInsertReport "b" "c" "Y" "spam" 2) 2].
Proof.
  apply (getReports_returns_all [mkInsertReport "a" "b" "X" "rude" 1;
                                 mkInsertReport "b" "c" "Y" "spam" 2]).
  by vm_compute.
Defined.

(** * Events from unknown sockets, and seekers without wishes *)

(** X15.  In a reachable state every event other than a connection that
    arrives under an id the registry does not know leaves the state as it
    is and emits nothing.  Such a turn throws in one case only: a
    [report-user] without payload, whose argument is destructured before
    the registry is consulted. *)
Theorem unknown_socket_is_ignored s sid e :
  reachable s → activeUsers s !! sid = None → e ≠ Connection →
  st (handle s sid e) = s ∧ emitted (handle s sid e) = []
  ∧ (threw (handle s sid e) = true ↔ ∃ now, e = ReportUser None now).
Proof.
  intros Hr Hsid He. pose proof (reachable_consistent _ Hr) as Hc.
  assert (∀ kind x, relay kind s sid x = ok s []) as Hrelay.
  { intros kind x. unfold relay. by rewrite Hsid. }
  assert (∀ o : Outcome, o = ok s [] →
            ∀ e', (∀ now, e' ≠ ReportUser None now) →
            st o = s ∧ emitted o = []
            ∧ (threw o = true ↔ ∃ now, e' = ReportUser None now)) as Hok.
  { intros o -> e' He'. split_and!; [done | done |].
    split; [done |]. intros [now ->]. by destruct (He' now). }
  destruct e as [| q | | x | x | x | x | payload now |]; simpl; [done | ..].
  - apply Hok; [| done]. unfold on_update_preferences. by rewrite Hsid.
  - apply Hok; [| done]. unfold on_find_peer. by rewrite Hsid.
  - apply Hok; [| done]. unfold on_offer. by rewrite Hrelay.
  - apply Hok; [| done]. unfold on_answer. by rewrite Hrelay.
  - apply Hok; [| done]. unfold on_ice_candidate. by rewrite Hrelay.
  - apply Hok; [| done]. unfold on_chat_message. by rewrite Hrelay.
  - destruct payload as [[reason details] |].
    + apply Hok; [| done]. unfold on_report_user. by rewrite Hsid.
    + simpl. split_and!; [done | done |]. split; [by exists now | done].
  - apply Hok; [| done]. rewrite (on_disconnect_absent _ _ Hsid). f_equal.
    assert (¬ queued (waitingUsers s) sid) as Hnq.
    { intros Hq. destruct (c_queued _ Hc _ Hq) as (u & Hu & _). congruence. }
    destruct s as [m [wm wf wb] store].
    unfold removeFromWaitingPools, with_waiting, queued in *. simpl in *.
    rewrite !set_delete_absent; [done | tauto ..].
Qed.

Lemma unknown_socket_is_ignored_witness :
  st (handle paired "zed" (ReportUser None 5)) = paired
  ∧ emitted (handle paired "zed" (ReportUser None 5)) = []
  ∧ (threw (handle paired "zed" (ReportUser None 5)) = true
     ↔ ∃ now, ReportUser None 5 = ReportUser None now).
Proof.
  apply (unknown_socket_is_ignored paired "zed" (ReportUser None 5)
           paired_reachable).
  - vm_compute. reflexivity.
  - discriminate.
Defined.

(** X16.  In a reachable state a registered seeker that desires neither
    "male" nor "female" and any country is never left waiting while another
    socket waits: the match engine returns the socket that has waited
    longest among the others. *)
Theorem seeker_without_wishes_is_served s sid user p k :
  reachable s → activeUsers s !! sid = Some user →
  preferences user = Some p →
  pref_gender p ≠ "male" →
  pref_gender p ≠ "female" →
  pref_country p = "any" →
  queued (waitingUsers s) k → k ≠ sid →
  ∃ m, findMatch s sid = Returned (Some m)
       ∧ head (filter (λ c, c ≠ sid) (both (waitingUsers s))) = Some m.
Proof.
  intros Hr Hsid Hp Hmale Hfemale Hany Hq Hk.
  pose proof (reachable_inert _ Hr) as [_ Hm Hf].
  assert (findMatch s sid
          = Returned (head (filter (λ c, c ≠ sid) (both (waitingUsers s)))))
    as Hfind.
  { unfold findMatch, potentialMatches. rewrite Hsid, Hp, Hany, Hm, Hf.
    rewrite (decide_False (P := pref_gender p = "male")) by done.
    rewrite (decide_False (P := pref_gender p = "female")) by done.
    rewrite (decide_False (P := "any" ≠ "any")) by (intros Hx; by apply Hx).
    f_equal. apply firstOther_head. }
  rewrite Hfind.
  assert (k ∈ filter (λ c, c ≠ sid) (both (waitingUsers s))) as Hin.
  { apply list_elem_of_filter. split; [done |].
    destruct Hq as [Hq | [Hq | Hq]]; [| | done].
    - rewrite Hm in Hq. by apply elem_of_nil in Hq.
    - rewrite Hf in Hq. by apply elem_of_nil in Hq. }
  destruct (filter (λ c, c ≠ sid) (both (waitingUsers s))) as [| m rest];
    [by apply elem_of_nil in Hin |].
  by exists m.
Qed.

Lemma seeker_without_wishes_is_served_witness :
  findMatch regions "w" = Returned (Some "x").
Proof.
  destruct (seeker_without_wishes_is_served regions "w"
              (default_user "w" None) (mkPreferences "both" "any") "y")
    as (m & Hfind & Hhead).
  - apply run_reachable; [apply reachable_init | by vm_compute].
  - vm_compute. reflexivity.
  - reflexivity.
  - discriminate.
  - discriminate.
  - reflexivity.
  - right. right. vm_compute. apply list_elem_of_further, list_elem_of_here.
  - discriminate.
  - vm_compute in Hhead. injection Hhead as <-. exact Hfind.
Defined.
